(** * Ramp coordinator: registry, ramp scheduler and metrics aggregator

    Shallow embedding of the two coordinator programs of the repository:

    - [Coordinator]    : src/unnamed/part_000 (WebSocket registry, Prometheus
                         aggregation in [updatePromMetrics], ramp loop [ramp]);
    - [RampCoordinator]: src/unnamed/part_001 (registry and ramp loop
                         [rampCluster] only);
    - [RampClient]     : src/unnamed/part_002, its synchronous part
                         ([summarize] and [updatePrometheus]).

    Both programs run on one event loop: every handler (connection, message,
    close, timer wake-up of the ramp coroutine) runs to completion before the
    next one starts.  A program is therefore a transition function [step] on
    an explicit state, one transition per handler invocation.

    Modelling conventions.
    - JavaScript numbers that come from JSON reports are exact rationals
      ([Qc]); a division whose divisor is zero would give NaN or an infinity,
      which [Qc] does not have, so [js_div] reports it as [NonFinite].
      The rounding of binary64 arithmetic is not modelled: sums and
      quotients are the exact values of the expressions the code
      evaluates.
    - Ramp targets, step indices and array lengths are natural numbers.
    - [Date.now()] is supplied by the event; the clock does not move while
      one handler runs.
    - A node object is a heap cell; the array [nodes] holds references to
      such cells, and the closures of a connection keep the reference of
      their own node.  The reference of a node is the handle of its socket.
    - A socket of the [ws] library emits ['message'] only while it is open,
      between its ['connection'] and its ['close'] event; [step] passes a
      frame to the handler only for a socket whose node is in the registry.
    - The fields of a report that the aggregator reads are JSON numbers or
      are missing.  Reports that carry [null], a string or a boolean in such
      a field are outside the model ([connected: null] would pass the test
      [!== undefined], a string would be concatenated by [+=]). *)

From Stdlib Require Import QArith Qcanon ZArith Lia.
From stdpp Require Import numbers pretty strings gmap fin_maps list.

Local Open Scope Qc_scope.

(** ** JavaScript prelude *)

(** Outcome of a computation that may throw a [TypeError] (property read on
    [undefined]) or leave the rational number model ([NonFinite]). *)
Inductive outcome (A : Type) : Type :=
| Ok (a : A)
| TypeError
| NonFinite.
Arguments Ok {A} a.
Arguments TypeError {A}.
Arguments NonFinite {A}.

Global Instance outcome_ret : MRet outcome := @Ok.
Global Instance outcome_bind : MBind outcome := λ A B f x,
  match x with
  | Ok a => f a
  | TypeError => TypeError
  | NonFinite => NonFinite
  end.

(** [Array.prototype.filter] with a predicate that may throw. *)
Fixpoint filterE {A} (p : A → outcome bool) (l : list A) : outcome (list A) :=
  match l with
  | [] => Ok []
  | x :: l' => b ← p x; r ← filterE p l'; Ok (if b : bool then x :: r else r)
  end.

(** [Array.prototype.forEach] whose body updates the enclosing variables
    [st] and may throw. *)
Fixpoint forEachE {A S} (body : S → A → outcome S) (l : list A) (st : S)
  : outcome S :=
  match l with
  | [] => Ok st
  | x :: l' => st' ← body st x; forEachE body l' st'
  end.

(** [v || 0] on a field that is a number or missing. *)
Definition or0 (v : option Qc) : Qc :=
  match v with
  | Some x => x
  | None => 0
  end.

Definition Math_max (x y : Qc) : Qc := if decide (x ≤ y) then y else x.

Definition js_div (x y : Qc) : outcome Qc :=
  if decide (y = 0) then NonFinite else Ok (x / y).

Definition Qc_of_nat (n : nat) : Qc := Qc_of_Z (Z.of_nat n).

(** Socket handles; also the identity of the node object of that socket. *)
Abbreviation conn := nat (only parsing).

(** Messages the coordinator sends with [ws.send]. *)
Inductive OutMsg :=
| Register (nodeId : string)
| Ramp (clients : nat) (step : nat).

Global Instance OutMsg_eq_dec : EqDecision OutMsg.
Proof. solve_decision. Defined.

(** Selectors on sent messages: the [clients] field of a ramp directive and
    the test that a message is a directive of step [i]. *)
Definition directive_clients (cm : conn * OutMsg) : nat :=
  match cm.2 with
  | Ramp k _ => k
  | Register _ => 0%nat
  end.

Definition is_ramp_of_step (i : nat) (cm : conn * OutMsg) : bool :=
  match cm.2 with
  | Ramp _ j => bool_decide (j = i)
  | Register _ => false
  end.

Definition FIB_SEQUENCE : list nat :=
  [1; 2; 3; 5; 8; 13; 21; 34; 55; 89; 144; 233; 377; 500]%nat.
Definition RAMP_INTERVAL_MS : Z := (2 * 60 * 1000)%Z.

(** [perNode + (idx < rem ? 1 : 0)], the expression both ramp loops use. *)
Definition target (perNode rem idx : nat) : nat :=
  (perNode + (if decide (idx < rem)%nat then 1 else 0))%nat.

(** The ramp coroutine between two runs: asleep for [ms] milliseconds with
    the loop about to take entry [next] of the sequence, or returned. *)
Inductive RampTask :=
| Sleeping (ms : Z) (next : nat)
| Finished.

(** ** src/unnamed/part_000 *)
Module Coordinator.

(** The [metrics] object of a report, restricted to the fields the
    aggregator reads; each is a JSON number or is missing ([undefined]).
    A payload that is a JSON number, string or boolean has no such field and
    reads like [emptyMetrics]. *)
Record Metrics := {
  connected : option Qc;
  avgStartup : option Qc;
  avgBitrate : option Qc;
  avgBuffers : option Qc;
  avgBufferTime : option Qc;
  cpu : option Qc;
  mem : option Qc;
  clients : option Qc;
  failures : option Qc;
}.

(** The object literal [{}]. *)
Definition emptyMetrics : Metrics :=
  Build_Metrics None None None None None None None None None.

(** [{ id: nodeId, ws, lastReport: Date.now(), metrics: {} }];
    [metrics = None] is a payload on which a property read throws
    ([undefined] or [null], as [data.metrics] of a report without it). *)
Record Node := {
  id : string;
  ws : conn;
  lastReport : Z;
  metrics : option Metrics;
}.

(** The six unlabelled gauges. *)
Record ClusterGauges := {
  totalClientsGauge : Qc;
  dropRateGauge : Qc;
  avgStartupGauge : Qc;
  avgBitrateGauge : Qc;
  avgBuffersGauge : Qc;
  avgBufferTimeGauge : Qc;
}.

(** The four gauges labelled by node id. *)
Record NodeGauges := {
  nodeCpuGauge : gmap string Qc;
  nodeMemGauge : gmap string Qc;
  nodeClientsGauge : gmap string Qc;
  nodeFailuresGauge : gmap string Qc;
}.

Record State := {
  nodes : list conn;
  heap : gmap conn Node;
  nextConn : conn;
  lastTotalClients : Qc;
  cluster : ClusterGauges;
  perNode : NodeGauges;
  sent : list (conn * OutMsg);
  rampTask : RampTask;
}.

(** State at start-up; [setTimeout(ramp, 5000)] is pending. *)
Definition init : State := {|
  nodes := [];
  heap := ∅;
  nextConn := 0;
  lastTotalClients := 0;
  cluster := Build_ClusterGauges 0 0 0 0 0 0;
  perNode := Build_NodeGauges ∅ ∅ ∅ ∅;
  sent := [];
  rampTask := Sleeping 5000 0%nat;
|}.

(** The array [nodes] as the sequence of the objects it refers to. *)
Definition live (s : State) : list Node :=
  omap (λ r, heap s !! r) (nodes s).

(** *** wss.on("connection") *)

Definition nodeId_of (s : State) : string :=
  "node-" +:+ pretty (length (live s) + 1)%nat.

Definition on_connection (now : Z) (s : State) : State :=
  let c := nextConn s in
  let nodeId := nodeId_of s in
  let node := {| id := nodeId; ws := c; lastReport := now;
                 metrics := Some emptyMetrics |} in
  {| nodes := nodes s ++ [c];
     heap := <[c := node]> (heap s);
     nextConn := S c;
     lastTotalClients := lastTotalClients s;
     cluster := cluster s;
     perNode := perNode s;
     sent := sent s ++ [(c, Register nodeId)];
     rampTask := rampTask s |}.

(** *** ws.on("close") *)

Definition on_close (c : conn) (s : State) : State :=
  {| nodes := filter (λ r, r ≠ c) (nodes s);
     heap := heap s;
     nextConn := nextConn s;
     lastTotalClients := lastTotalClients s;
     cluster := cluster s;
     perNode := perNode s;
     sent := sent s;
     rampTask := rampTask s |}.

(** *** updatePromMetrics *)

(** The filter predicate
    [Date.now() - n.lastReport < 30000 && n.metrics.connected !== undefined];
    [&&] does not read [n.metrics] when its left operand is false. *)
Definition is_active (now : Z) (n : Node) : outcome bool :=
  if decide (now - lastReport n < 30000)%Z then
    match metrics n with
    | None => TypeError
    | Some m => Ok (bool_decide (is_Some (connected m)))
    end
  else Ok false.

(** Variables the [forEach] body of [updatePromMetrics] updates. *)
Record Sums := {
  totalClients : Qc;
  sumStartup : Qc;
  sumBitrate : Qc;
  sumBuffers : Qc;
  sumBufTime : Qc;
  gauges : NodeGauges;
}.

Definition set_node_gauges (i : string) (m : Metrics) (g : NodeGauges)
  : NodeGauges :=
  {| nodeCpuGauge := <[i := or0 (cpu m)]> (nodeCpuGauge g);
     nodeMemGauge := <[i := or0 (mem m)]> (nodeMemGauge g);
     nodeClientsGauge := <[i := or0 (clients m)]> (nodeClientsGauge g);
     nodeFailuresGauge := <[i := or0 (failures m)]> (nodeFailuresGauge g) |}.

Definition accumulate_with (m : Metrics) (i : string) (a : Sums) : Sums :=
  {| totalClients := totalClients a + or0 (connected m);
     sumStartup := sumStartup a + or0 (avgStartup m);
     sumBitrate := sumBitrate a + or0 (avgBitrate m);
     sumBuffers := sumBuffers a + or0 (avgBuffers m);
     sumBufTime := sumBufTime a + or0 (avgBufferTime m);
     gauges := set_node_gauges i m (gauges a) |}.

(** Body of [active.forEach((n) => { const m = n.metrics; ... })]. *)
Definition accumulate (a : Sums) (n : Node) : outcome Sums :=
  match metrics n with
  | None => TypeError
  | Some m => Ok (accumulate_with m (id n) a)
  end.

Definition active_nodes (now : Z) (s : State) : outcome (list Node) :=
  filterE (is_active now) (live s).

Definition dropRate_of (last total : Qc) : outcome Qc :=
  if decide (0 < last) then
    q ← js_div (last - total) last; Ok (Math_max 0 q)
  else Ok 0.

(** The only property read that can throw is the one of the filter, which
    runs before any gauge is written: a node passes the filter only with a
    metrics object, so the [forEach] body finds one. *)
Definition updatePromMetrics (now : Z) (s : State) : outcome State :=
  active ← active_nodes now s;
  if decide (length active = 0%nat) then Ok s else
  a ← forEachE accumulate active
        {| totalClients := 0; sumStartup := 0; sumBitrate := 0;
           sumBuffers := 0; sumBufTime := 0; gauges := perNode s |};
  avgStartup ← js_div (sumStartup a) (Qc_of_nat (length active));
  avgBitrate ← js_div (sumBitrate a) (Qc_of_nat (length active));
  avgBuffers ← js_div (sumBuffers a) (Qc_of_nat (length active));
  avgBufTime ← js_div (sumBufTime a) (Qc_of_nat (length active));
  dropRate ← dropRate_of (lastTotalClients s) (totalClients a);
  Ok {| nodes := nodes s;
        heap := heap s;
        nextConn := nextConn s;
        lastTotalClients := totalClients a;
        cluster := {| totalClientsGauge := totalClients a;
                      dropRateGauge := dropRate;
                      avgStartupGauge := avgStartup;
                      avgBitrateGauge := avgBitrate;
                      avgBuffersGauge := avgBuffers;
                      avgBufferTimeGauge := avgBufTime |};
        perNode := gauges a;
        sent := sent s;
        rampTask := rampTask s |}.

(** *** ws.on("message") *)

(** An inbound frame: text on which [JSON.parse] (or the read of [data.type])
    throws, or a parsed object with its [type] and [metrics] properties;
    [payload = None] when [data.metrics] is [undefined] or [null]. *)
Inductive InMsg :=
| Unparseable
| Data (type : option string) (payload : option Metrics).

Definition record_report (c : conn) (now : Z) (payload : option Metrics)
  (s : State) : State :=
  {| nodes := nodes s;
     heap := alter (λ n, {| id := id n; ws := ws n; lastReport := now;
                            metrics := payload |}) c (heap s);
     nextConn := nextConn s;
     lastTotalClients := lastTotalClients s;
     cluster := cluster s;
     perNode := perNode s;
     sent := sent s;
     rampTask := rampTask s |}.

(** The handler is a closure over the node object [c] of its socket and
    does not look the node up in [nodes]; the [catch] keeps whatever was
    written before a throw. *)
Definition on_message (c : conn) (msg : InMsg) (now : Z) (s : State) : State :=
  match msg with
  | Unparseable => s
  | Data type payload =>
      if decide (type = Some "report") then
        let s1 := record_report c now payload s in
        match updatePromMetrics now s1 with
        | Ok s2 => s2
        | _ => s1
        end
      else s
  end.

(** *** ramp *)

(** The [ws.send] calls of [nodes.forEach((n, idx) => ...)] at entry
    [[i, total]]. *)
Definition ramp_directives (i total : nat) (ns : list Node)
  : list (conn * OutMsg) :=
  let perNode := (total / length ns)%nat in
  let rem := (total mod length ns)%nat in
  imap (λ idx n, (ws n, Ramp (target perNode rem idx) i)) ns.

(** One run of the coroutine [ramp], from the wake-up of its timer to its
    next [await sleep(..)] or its return.  [for (const [i, total] of
    FIB_SEQUENCE.entries())] takes the next entry of the iterator at the top
    of every iteration, also after [continue]. *)
Definition ramp_resume (s : State) : State :=
  match rampTask s with
  | Finished => s
  | Sleeping _ i =>
      match FIB_SEQUENCE !! i with
      | None =>
          {| nodes := nodes s; heap := heap s; nextConn := nextConn s;
             lastTotalClients := lastTotalClients s; cluster := cluster s;
             perNode := perNode s; sent := sent s; rampTask := Finished |}
      | Some total =>
          if decide (length (live s) = 0%nat) then
            {| nodes := nodes s; heap := heap s; nextConn := nextConn s;
               lastTotalClients := lastTotalClients s; cluster := cluster s;
               perNode := perNode s; sent := sent s;
               rampTask := Sleeping 5000 (S i) |}
          else
            {| nodes := nodes s; heap := heap s; nextConn := nextConn s;
               lastTotalClients := lastTotalClients s; cluster := cluster s;
               perNode := perNode s;
               sent := sent s ++ ramp_directives i total (live s);
               rampTask := Sleeping RAMP_INTERVAL_MS (S i) |}
      end
  end.

(** *** The event loop *)

Inductive event :=
| Connect (now : Z)
| Message (c : conn) (msg : InMsg) (now : Z)
| Close (c : conn)
| Wake.

(** A socket emits ['message'] only between its connection and its
    ['close'], that is while its node is in [nodes] (the close handler is the
    only code that removes a node); close handlers exist for sockets that
    have connected. *)
Definition step (s : State) (e : event) : State :=
  match e with
  | Connect now => on_connection now s
  | Message c msg now =>
      if decide (c ∈ nodes s) then on_message c msg now s else s
  | Close c =>
      if decide (is_Some (heap s !! c)) then on_close c s else s
  | Wake => ramp_resume s
  end.

Definition run (s : State) (es : list event) : State := foldl step s es.

(** Directives of ramp step [i] among the sent messages. *)
Definition sent_for_step (i : nat) (s : State) : list (conn * OutMsg) :=
  filter (λ cm, is_ramp_of_step i cm = true) (sent s).

End Coordinator.

(** ** src/unnamed/part_001 *)
Module RampCoordinator.

(** [{ id: nodeId, ws, clients: 0 }].  Only the array [nodes] refers to these
    objects (the closures keep [ws] and [nodeId]), so the array holds them by
    value. *)
Record Node := {
  id : string;
  ws : conn;
  clients : nat;
}.

(** Control point of the coroutine [rampCluster]: its start timer is
    pending, it is at the [await] of the loop body, or it has returned. *)
Inductive Task :=
| Scheduled
| Awaiting
| Returned.

Record State := {
  nodes : list Node;
  currentStep : nat;
  nextConn : conn;
  sent : list (conn * OutMsg);
  task : Task;
}.

Definition init : State := {|
  nodes := [];
  currentStep := 0%nat;
  nextConn := 0;
  sent := [];
  task := Scheduled;
|}.

(** *** wss.on("connection") *)

Definition nodeId_of (s : State) : string :=
  "node-" +:+ pretty (length (nodes s) + 1)%nat.

Definition on_connection (s : State) : State :=
  let c := nextConn s in
  let nodeId := nodeId_of s in
  {| nodes := nodes s ++ [{| id := nodeId; ws := c; clients := 0%nat |}];
     currentStep := currentStep s;
     nextConn := S c;
     sent := sent s ++ [(c, Register nodeId)];
     task := task s |}.

(** *** ws.on("close") *)

Definition on_close (c : conn) (s : State) : State :=
  {| nodes := filter (λ n, ws n ≠ c) (nodes s);
     currentStep := currentStep s;
     nextConn := nextConn s;
     sent := sent s;
     task := task s |}.

(** *** rampCluster *)

(** [count] of the node at position [idx]; with an empty array the quotient
    and the remainder are never read. *)
Definition count_for (totalClients : nat) (ns : list Node) (idx : nat) : nat :=
  let clientsPerNode := (totalClients / length ns)%nat in
  let remainder := (totalClients mod length ns)%nat in
  target clientsPerNode remainder idx.

(** The [ws.send] calls of [nodes.forEach((node, idx) => ...)]. *)
Definition ramp_directives (step totalClients : nat) (ns : list Node)
  : list (conn * OutMsg) :=
  imap (λ idx node, (ws node, Ramp (count_for totalClients ns idx) step)) ns.

(** The assignments [node.clients = count] of the same [forEach]. *)
Definition assign_clients (totalClients : nat) (ns : list Node) : list Node :=
  imap (λ idx node, {| id := id node; ws := ws node;
                       clients := count_for totalClients ns idx |}) ns.

(** Loop test and loop body, up to the [await] or the return. *)
Definition iteration (k : nat) (s : State) : State :=
  match FIB_SEQUENCE !! k with
  | None =>
      {| nodes := nodes s; currentStep := k; nextConn := nextConn s;
         sent := sent s; task := Returned |}
  | Some totalClients =>
      {| nodes := assign_clients totalClients (nodes s);
         currentStep := k;
         nextConn := nextConn s;
         sent := sent s ++ ramp_directives k totalClients (nodes s);
         task := Awaiting |}
  end.

(** One run of the coroutine: [currentStep = 0] on its first run,
    [currentStep++] when the [await] of the body resumes. *)
Definition rampCluster_resume (s : State) : State :=
  match task s with
  | Scheduled => iteration 0 s
  | Awaiting => iteration (S (currentStep s)) s
  | Returned => s
  end.

(** *** The event loop *)

Inductive event :=
| Connect
| Close (c : conn)
| Wake.

Definition step (s : State) (e : event) : State :=
  match e with
  | Connect => on_connection s
  | Close c => if decide (c < nextConn s)%nat then on_close c s else s
  | Wake => rampCluster_resume s
  end.

Definition run (s : State) (es : list event) : State := foldl step s es.

Definition sent_for_step (i : nat) (s : State) : list (conn * OutMsg) :=
  filter (λ cm, is_ramp_of_step i cm = true) (sent s).

End RampCoordinator.

(** ** src/unnamed/part_002: the summary of the ramp client *)
Module RampClient.

(** A row of the array [metrics], restricted to the fields [summarize]
    reads.  A row is the object literal pushed by [launchClient], later
    overlaid with what [window.collectMetrics()] returns: [connected] is a
    boolean, [startupDelay] is [null] until the first frame and a number
    afterwards, the other three are numbers. *)
Record Row := {
  id : nat;
  connected : bool;
  startupDelay : option Qc;
  bufferEvents : Qc;
  bufferTime : Qc;
  bitrate : Qc;
}.

(** The object [summarize] returns. *)
Record Summary := {
  okClients : nat;
  avgStartup : Qc;
  avgBuffers : Qc;
  avgBufferTime : Qc;
  avgBitrate : Qc;
}.

(** The five gauges labelled by [load_step]. *)
Record Gauges := {
  qoeConnected : gmap string Qc;
  qoeAvgStartup : gmap string Qc;
  qoeAvgBitrate : gmap string Qc;
  qoeAvgBuffers : gmap string Qc;
  qoeAvgBufferTime : gmap string Qc;
}.

Record State := {
  metrics : list Row;
  currentLoadStep : nat;
  gauges : Gauges;
}.

(** [n || 1] on an array length. *)
Definition or1 (n : nat) : Qc :=
  if decide (n = 0%nat) then 1 else Qc_of_nat n.

(** Truthiness of [m.startupDelay]: neither [null] nor 0. *)
Definition has_startup (m : Row) : Prop :=
  match startupDelay m with
  | Some x => x ≠ 0
  | None => False
  end.

Global Instance has_startup_dec m : Decision (has_startup m).
Proof. unfold has_startup. destruct (startupDelay m); apply _. Defined.

(** [rows.reduce((a, b) => a + f(b), 0)]. *)
Definition reduce_sum (f : Row → Qc) (rows : list Row) : Qc :=
  foldl (λ a b, a + f b) 0 rows.

(** [updatePrometheus(summary, step)]; [String(step)] of a step index is
    its decimal notation, and [x || 0] of a number is that number. *)
Definition updatePrometheus (summary : Summary) (step : nat) (g : Gauges)
  : Gauges :=
  let label := pretty step in
  {| qoeConnected := <[label := Qc_of_nat (okClients summary)]> (qoeConnected g);
     qoeAvgStartup := <[label := avgStartup summary]> (qoeAvgStartup g);
     qoeAvgBitrate := <[label := avgBitrate summary]> (qoeAvgBitrate g);
     qoeAvgBuffers := <[label := avgBuffers summary]> (qoeAvgBuffers g);
     qoeAvgBufferTime := <[label := avgBufferTime summary]> (qoeAvgBufferTime g) |}.

Definition summarize (s : State) : outcome (Summary * State) :=
  let total := length (metrics s) in
  let ok := length (filter (λ m, connected m = true) (metrics s)) in
  avgStartup ← js_div (reduce_sum (λ b, or0 (startupDelay b))
                         (filter has_startup (metrics s))) (or1 ok);
  avgBuffers ← js_div (reduce_sum bufferEvents (metrics s)) (or1 total);
  avgBufferTime ← js_div (reduce_sum bufferTime (metrics s)) (or1 ok);
  avgBitrate ← js_div (reduce_sum bitrate (metrics s)) (or1 ok);
  let summary := {| okClients := ok; avgStartup := avgStartup;
                    avgBuffers := avgBuffers;
                    avgBufferTime := avgBufferTime;
                    avgBitrate := avgBitrate |} in
  Ok (summary,
      {| metrics := metrics s;
         currentLoadStep := currentLoadStep s;
         gauges := updatePrometheus summary (currentLoadStep s) (gauges s) |}).

End RampClient.

(** * Vocabulary of the statements *)

(** What a list of directives [ds] must satisfy to partition [T] over the
    nodes [ns] (sockets [wsf]) at step [i]: one directive per node, in
    registry order, carrying [T / N + 1] at the first [T mod N] positions and
    [T / N] at the others, the counts adding up to [T]. *)
Definition partitions {A} (wsf : A → conn) (i T : nat) (ns : list A)
  (ds : list (conn * OutMsg)) : Prop :=
  let N := length ns in
  length ds = N
  ∧ sum_list (directive_clients <$> ds) = T
  ∧ (∀ idx n, ns !! idx = Some n →
       ds !! idx = Some (wsf n, Ramp (if decide (idx < T mod N)%nat
                                      then T / N + 1 else T / N)%nat i))
  ∧ length (filter (λ d, directive_clients d = (T / N + 1)%nat) ds)
    = (T mod N)%nat.

Definition sumQc (l : list Qc) : Qc := foldr Qcplus 0 l.

(** The node's last report is younger than 30 s and has a [connected]
    field. *)
Definition Active (now : Z) (n : Coordinator.Node) : Prop :=
  (now - Coordinator.lastReport n < 30000)%Z
  ∧ is_Some (Coordinator.metrics n ≫= Coordinator.connected).

Global Instance Active_dec now n : Decision (Active now n).
Proof. unfold Active. apply _. Defined.

(** Sum over the nodes [ns] of the field [f] of their reports, a missing
    field counting as zero. *)
Definition field_sum (f : Coordinator.Metrics → option Qc)
  (ns : list Coordinator.Node) : Qc :=
  sumQc ((λ n, or0 (Coordinator.metrics n ≫= f)) <$> ns).

Definition field_mean (f : Coordinator.Metrics → option Qc)
  (ns : list Coordinator.Node) : Qc :=
  field_sum f ns / Qc_of_nat (length ns).

(** The per-node gauges after the nodes [ns] have published, in order,
    the resource figures of their reports under their ids. *)
Definition publish_nodes (ns : list Coordinator.Node)
  (g : Coordinator.NodeGauges) : Coordinator.NodeGauges :=
  foldl (λ g n, match Coordinator.metrics n with
                | Some m => Coordinator.set_node_gauges (Coordinator.id n) m g
                | None => g
                end) g ns.

(** The four figures published under the label [i]. *)
Definition node_figures (i : string) (g : Coordinator.NodeGauges)
  : option Qc * option Qc * option Qc * option Qc :=
  (Coordinator.nodeCpuGauge g !! i, Coordinator.nodeMemGauge g !! i,
   Coordinator.nodeClientsGauge g !! i, Coordinator.nodeFailuresGauge g !! i).

(** The drop rate as the specification writes it. *)
Definition drop_rate_spec (previousTotal totalClients : Qc) : Qc :=
  if decide (0 < previousTotal)
  then Math_max 0 ((previousTotal - totalClients) / previousTotal)
  else 0.

(** The state an aggregation over the non-empty active set [active]
    leaves: totals and means over [active], the drop rate against the stored
    previous total, the stored total replaced. *)
Definition aggregated (s : Coordinator.State) (active : list Coordinator.Node)
  : Coordinator.State :=
  {| Coordinator.nodes := Coordinator.nodes s;
     Coordinator.heap := Coordinator.heap s;
     Coordinator.nextConn := Coordinator.nextConn s;
     Coordinator.lastTotalClients := field_sum Coordinator.connected active;
     Coordinator.cluster :=
       {| Coordinator.totalClientsGauge :=
            field_sum Coordinator.connected active;
          Coordinator.dropRateGauge :=
            drop_rate_spec (Coordinator.lastTotalClients s)
                           (field_sum Coordinator.connected active);
          Coordinator.avgStartupGauge :=
            field_mean Coordinator.avgStartup active;
          Coordinator.avgBitrateGauge :=
            field_mean Coordinator.avgBitrate active;
          Coordinator.avgBuffersGauge :=
            field_mean Coordinator.avgBuffers active;
          Coordinator.avgBufferTimeGauge :=
            field_mean Coordinator.avgBufferTime active |};
     Coordinator.perNode := publish_nodes active (Coordinator.perNode s);
     Coordinator.sent := Coordinator.sent s;
     Coordinator.rampTask := Coordinator.rampTask s |}.

(** The registry refers to distinct, allocated node objects, and every
    allocated node object carries the handle of its own socket. *)
Definition registry_wf (s : Coordinator.State) : Prop :=
  NoDup (Coordinator.nodes s)
  ∧ (∀ r, r ∈ Coordinator.nodes s → (r < Coordinator.nextConn s)%nat)
  ∧ (∀ r, is_Some (Coordinator.heap s !! r)
          ↔ (r < Coordinator.nextConn s)%nat)
  ∧ (∀ r n, Coordinator.heap s !! r = Some n → Coordinator.ws n = r).

(** ** Vocabulary of the run-level properties *)

Definition is_connect (e : Coordinator.event) : bool :=
  match e with
  | Coordinator.Connect _ => true
  | _ => false
  end.

Definition is_close (e : Coordinator.event) : bool :=
  match e with
  | Coordinator.Close _ => true
  | _ => false
  end.

Definition is_wake (e : Coordinator.event) : bool :=
  match e with
  | Coordinator.Wake => true
  | _ => false
  end.

(** The event is a frame whose parsed [type] is ["report"]. *)
Definition is_report (e : Coordinator.event) : bool :=
  match e with
  | Coordinator.Message _ (Coordinator.Data type _) _ =>
      bool_decide (type = Some "report")
  | _ => false
  end.

Definition count_events {E} (p : E → bool) (es : list E) : nat :=
  length (filter (λ e, p e = true) es).

(** The ramp iterator has gone past entry [i]. *)
Definition passed (i : nat) (t : RampTask) : Prop :=
  match t with
  | Sleeping _ next => (i < next)%nat
  | Finished => True
  end.

Definition is_register (cm : conn * OutMsg) : bool :=
  match cm.2 with
  | Register _ => true
  | Ramp _ _ => false
  end.

(** The messages of a log that were sent on socket [c]. *)
Definition sent_to (c : conn) (log : list (conn * OutMsg))
  : list (conn * OutMsg) :=
  filter (λ cm, cm.1 = c) log.

(** The node's last report is younger than 30 s and had no metrics
    object. *)
Definition fresh_without_metrics (now : Z) (n : Coordinator.Node) : Prop :=
  (now - Coordinator.lastReport n < 30000)%Z ∧ Coordinator.metrics n = None.

(** The node object after [node.lastReport = now; node.metrics = payload]. *)
Definition reported (now : Z) (payload : option Coordinator.Metrics)
  (n : Coordinator.Node) : Coordinator.Node :=
  {| Coordinator.id := Coordinator.id n;
     Coordinator.ws := Coordinator.ws n;
     Coordinator.lastReport := now;
     Coordinator.metrics := payload |}.

(** The part of the state the exposition endpoint reads. *)
Definition snapshot (s : Coordinator.State)
  : Coordinator.ClusterGauges * Coordinator.NodeGauges * Qc :=
  (Coordinator.cluster s, Coordinator.perNode s,
   Coordinator.lastTotalClients s).

(** The label [i] has a value in each of the four per-node gauges. *)
Definition published (i : string) (g : Coordinator.NodeGauges) : Prop :=
  is_Some (Coordinator.nodeCpuGauge g !! i)
  ∧ is_Some (Coordinator.nodeMemGauge g !! i)
  ∧ is_Some (Coordinator.nodeClientsGauge g !! i)
  ∧ is_Some (Coordinator.nodeFailuresGauge g !! i).

(** A logged message is a registration, or a directive of an entry the
    ramp iterator has gone past whose client count does not exceed the
    target of that entry. *)
Definition directive_ok (t : RampTask) (cm : conn * OutMsg) : Prop :=
  match cm.2 with
  | Register _ => True
  | Ramp k j =>
      passed j t
      ∧ ∃ total, FIB_SEQUENCE !! j = Some total
                 ∧ (k ≤ total)%nat ∧ (total ≤ 500)%nat
  end.

(** Events of part_001. *)
Definition cluster_is_connect (e : RampCoordinator.event) : bool :=
  match e with
  | RampCoordinator.Connect => true
  | _ => false
  end.

Definition cluster_is_wake (e : RampCoordinator.event) : bool :=
  match e with
  | RampCoordinator.Wake => true
  | _ => false
  end.

(** The client count of the last ramp directive of the log sent on socket
    [c]; 0 when there is none. *)
Definition last_count (c : conn) (log : list (conn * OutMsg)) : nat :=
  foldl (λ acc cm, if decide (cm.1 = c)
                   then match cm.2 with
                        | Ramp k _ => k
                        | Register _ => acc
                        end
                   else acc) 0%nat log.

(** The values the five gauges of the ramp client hold for the label
    [l]. *)
Definition step_series (l : string) (g : RampClient.Gauges)
  : option Qc * option Qc * option Qc * option Qc * option Qc :=
  (RampClient.qoeConnected g !! l, RampClient.qoeAvgStartup g !! l,
   RampClient.qoeAvgBitrate g !! l, RampClient.qoeAvgBuffers g !! l,
   RampClient.qoeAvgBufferTime g !! l).

(** ** Scenarios *)

(** A report frame with the metrics object [m]. *)
Definition report (m : Coordinator.Metrics) : Coordinator.InMsg :=
  Coordinator.Data (Some "report") (Some m).

(** A metrics object with only the connected-client count. *)
Definition counted (k : Z) : Coordinator.Metrics :=
  {| Coordinator.connected := Some (Qc_of_Z k);
     Coordinator.avgStartup := None; Coordinator.avgBitrate := None;
     Coordinator.avgBuffers := None; Coordinator.avgBufferTime := None;
     Coordinator.cpu := None; Coordinator.mem := None;
     Coordinator.clients := None; Coordinator.failures := None |}.

(** A metrics object with one client and the CPU load [load]. *)
Definition loaded (load : Qc) : Coordinator.Metrics :=
  {| Coordinator.connected := Some 1;
     Coordinator.avgStartup := None; Coordinator.avgBitrate := None;
     Coordinator.avgBuffers := None; Coordinator.avgBufferTime := None;
     Coordinator.cpu := Some load; Coordinator.mem := None;
     Coordinator.clients := None; Coordinator.failures := None |}.

(** Two nodes join; the first reports 10 clients at 1 s, the second 5
    clients at 2 s. *)
Definition two_reporting_nodes : Coordinator.State :=
  Coordinator.run Coordinator.init
    [Coordinator.Connect 0; Coordinator.Connect 0;
     Coordinator.Message 0 (report (counted 10)) 1000;
     Coordinator.Message 1 (report (counted 5)) 2000].

(** The same, the first node's next report (10 clients, at 33 s) recorded
    and not yet aggregated. *)
Definition second_node_silent : Coordinator.State :=
  Coordinator.record_report 0 33000 (Some (counted 10)) two_reporting_nodes.

(** A metrics object with a client count and the four QoE figures. *)
Definition qoe (k startup bitrate buffers bufferTime : Z)
  : Coordinator.Metrics :=
  {| Coordinator.connected := Some (Qc_of_Z k);
     Coordinator.avgStartup := Some (Qc_of_Z startup);
     Coordinator.avgBitrate := Some (Qc_of_Z bitrate);
     Coordinator.avgBuffers := Some (Qc_of_Z buffers);
     Coordinator.avgBufferTime := Some (Qc_of_Z bufferTime);
     Coordinator.cpu := None; Coordinator.mem := None;
     Coordinator.clients := None; Coordinator.failures := None |}.

(** Three nodes: the first two report full QoE figures, the third only its
    client count. *)
Definition three_qoe_nodes : Coordinator.State :=
  Coordinator.run Coordinator.init
    [Coordinator.Connect 0; Coordinator.Connect 0; Coordinator.Connect 0;
     Coordinator.Message 0 (report (qoe 10 100 1000 2 40)) 1000;
     Coordinator.Message 1 (report (qoe 5 300 3000 4 60)) 2000;
     Coordinator.Message 2 (report (counted 3)) 3000].

(** Three nodes have joined and ramp steps 0 to 3 have shipped; step index
    4 (target 8) is due. *)
Definition three_nodes_step4_due : Coordinator.State :=
  Coordinator.run Coordinator.init
    [Coordinator.Connect 0; Coordinator.Connect 0; Coordinator.Connect 0;
     Coordinator.Wake; Coordinator.Wake; Coordinator.Wake; Coordinator.Wake].

(** The same events on part_001. *)
Definition cluster_three_nodes_step4_due : RampCoordinator.State :=
  RampCoordinator.run RampCoordinator.init
    [RampCoordinator.Connect; RampCoordinator.Connect;
     RampCoordinator.Connect; RampCoordinator.Wake; RampCoordinator.Wake;
     RampCoordinator.Wake; RampCoordinator.Wake].

(** One node joins and ramp steps 0 to 3 ship; the node then disconnects,
    so step index 4 (target 8) falls due on an empty registry. *)
Definition step4_due : Coordinator.State :=
  Coordinator.run Coordinator.init
    [Coordinator.Connect 0; Coordinator.Wake; Coordinator.Wake;
     Coordinator.Wake; Coordinator.Wake; Coordinator.Close 0].

(** The same events on part_001. *)
Definition cluster_step4_due : RampCoordinator.State :=
  RampCoordinator.run RampCoordinator.init
    [RampCoordinator.Connect; RampCoordinator.Wake; RampCoordinator.Wake;
     RampCoordinator.Wake; RampCoordinator.Wake; RampCoordinator.Close 0].

(** Two nodes join, the first disconnects, a third joins. *)
Definition churn : list Coordinator.event :=
  [Coordinator.Connect 0; Coordinator.Connect 0; Coordinator.Close 0;
   Coordinator.Connect 0].

Definition cluster_churn : list RampCoordinator.event :=
  [RampCoordinator.Connect; RampCoordinator.Connect; RampCoordinator.Close 0;
   RampCoordinator.Connect].

(** After [churn], the node of socket 1 reports a CPU load of 1/2. *)
Definition shared_id_published : Coordinator.State :=
  Coordinator.run Coordinator.init
    (churn ++ [Coordinator.Message 1 (report (loaded (Q2Qc (1 # 2)))) 1000]).


(** A ramp client at load step 3 with one connected and one unconnected
    client, and a series already published for step 2. *)
Definition sample_client : RampClient.State :=
  {| RampClient.metrics :=
       [ {| RampClient.id := 1; RampClient.connected := true;
            RampClient.startupDelay := Some (Q2Qc 120);
            RampClient.bufferEvents := Q2Qc 2;
            RampClient.bufferTime := Q2Qc 300;
            RampClient.bitrate := Q2Qc 1000 |};
         {| RampClient.id := 2; RampClient.connected := false;
            RampClient.startupDelay := None;
            RampClient.bufferEvents := 0;
            RampClient.bufferTime := 0;
            RampClient.bitrate := 0 |} ];
     RampClient.currentLoadStep := 3;
     RampClient.gauges :=
       {| RampClient.qoeConnected := {[ "2" := Q2Qc 1 ]};
          RampClient.qoeAvgStartup := {[ "2" := Q2Qc 100 ]};
          RampClient.qoeAvgBitrate := {[ "2" := Q2Qc 900 ]};
          RampClient.qoeAvgBuffers := {[ "2" := Q2Qc 0 ]};
          RampClient.qoeAvgBufferTime := {[ "2" := Q2Qc 0 ]} |} |}.

(** * Properties *)

(** ** Partition of a step target (both ramp loops) *)

Lemma target_cases perNode rem idx :
  target perNode rem idx
  = if decide (idx < rem)%nat then (perNode + 1)%nat else perNode.
Proof. unfold target. case_decide; lia. Qed.

Lemma sum_target_seq perNode rem n :
  sum_list (target perNode rem <$> seq 0 n)
  = (n * perNode + n `min` rem)%nat.
Proof.
  induction n as [|n IH]; [done|].
  rewrite seq_S, fmap_app, sum_list_with_app, IH.
  change (sum_list (target perNode rem <$> [(0 + n)%nat]))
    with (target perNode rem n + 0)%nat.
  rewrite target_cases. case_decide; lia.
Qed.

Lemma count_target_seq perNode rem n :
  length (filter (λ k, k = (perNode + 1)%nat) (target perNode rem <$> seq 0 n))
  = (n `min` rem)%nat.
Proof.
  induction n as [|n IH]; [done|].
  rewrite seq_S, fmap_app, list.filter_app, length_app, IH.
  change (target perNode rem <$> [(0 + n)%nat]) with [target perNode rem n].
  rewrite target_cases.
  case_decide.
  - rewrite filter_cons_True, filter_nil by done.
    change (length [(perNode + 1)%nat]) with 1%nat. lia.
  - rewrite filter_cons_False, filter_nil by lia.
    change (length (@nil nat)) with 0%nat. lia.
Qed.

Lemma length_filter_fmap_eq {A} (f : A → nat) (k : nat) (l : list A) :
  length (filter (λ d, f d = k) l) = length (filter (λ x, x = k) (f <$> l)).
Proof.
  induction l as [|d l IH]; [done|].
  rewrite fmap_cons, !filter_cons. repeat case_decide; simpl; congruence.
Qed.

Lemma imap_directives_partition {A} (wsf : A → conn) (i T : nat) (ns : list A) :
  ns ≠ [] →
  partitions wsf i T ns
    (imap (λ idx n, (wsf n, Ramp (target (T / length ns) (T mod length ns) idx) i))
          ns).
Proof.
  intros Hne.
  assert (HN : (0 < length ns)%nat) by (destruct ns; [done | simpl; lia]).
  set (N := length ns) in *.
  set (ds := imap _ ns).
  assert (Hcl : directive_clients <$> ds
                = target (T / N) (T mod N) <$> seq 0 N).
  { subst ds N. rewrite fmap_imap, <-imap_seq_0.
    by apply imap_ext. }
  assert (Hr : (T mod N < N)%nat) by (apply Nat.mod_upper_bound; lia).
  unfold partitions. fold N. repeat split.
  - subst ds. by rewrite length_imap.
  - rewrite Hcl, sum_target_seq.
    rewrite Nat.min_r by lia.
    pose proof (Nat.div_mod_eq T N). lia.
  - intros idx n Hn. subst ds.
    rewrite list_lookup_imap, Hn. simpl.
    by rewrite target_cases.
  - rewrite length_filter_fmap_eq, Hcl, count_target_seq. lia.
Qed.

(** C1. Whenever a step index [i] with target [T] falls due on a non-empty
    registry, the wake-up of [ramp] (part_000) and of [rampCluster]
    (part_001) appends to the sent messages one directive per registry node,
    in registry order, and these directives partition [T]: the counts add up
    to [T], the node at position [idx] gets [T / N + 1] when [idx < T mod N]
    and [T / N] otherwise, and exactly [T mod N] directives carry
    [T / N + 1]; in part_001 the stored [clients] of every node becomes the
    count sent to it.  The same holds of the [forEach] of either loop for
    any total [T] and any non-empty node list. *)
Theorem C1_ramp_partition (i T : nat) :
  (∀ s ms,
     Coordinator.rampTask s = Sleeping ms i →
     FIB_SEQUENCE !! i = Some T →
     Coordinator.live s ≠ [] →
     ∃ ds, Coordinator.sent (Coordinator.step s Coordinator.Wake)
           = Coordinator.sent s ++ ds
         ∧ partitions Coordinator.ws i T (Coordinator.live s) ds)
  ∧ (∀ s,
       RampCoordinator.task s = RampCoordinator.Scheduled ∧ i = 0%nat
       ∨ RampCoordinator.task s = RampCoordinator.Awaiting
         ∧ i = S (RampCoordinator.currentStep s) →
       FIB_SEQUENCE !! i = Some T →
       RampCoordinator.nodes s ≠ [] →
       let s' := RampCoordinator.step s RampCoordinator.Wake in
       ∃ ds, RampCoordinator.sent s' = RampCoordinator.sent s ++ ds
           ∧ partitions RampCoordinator.ws i T (RampCoordinator.nodes s) ds
           ∧ RampCoordinator.ws <$> RampCoordinator.nodes s'
             = RampCoordinator.ws <$> RampCoordinator.nodes s
           ∧ RampCoordinator.clients <$> RampCoordinator.nodes s'
             = directive_clients <$> ds)
  ∧ (∀ ns : list Coordinator.Node, ns ≠ [] →
       partitions Coordinator.ws i T ns (Coordinator.ramp_directives i T ns))
  ∧ (∀ ns : list RampCoordinator.Node, ns ≠ [] →
       partitions RampCoordinator.ws i T ns
         (RampCoordinator.ramp_directives i T ns)
       ∧ RampCoordinator.clients <$> RampCoordinator.assign_clients T ns
         = directive_clients <$> RampCoordinator.ramp_directives i T ns).
Proof.
  assert (Hassign : ∀ ns,
            RampCoordinator.clients <$> RampCoordinator.assign_clients T ns
            = directive_clients <$> RampCoordinator.ramp_directives i T ns).
  { intros ns.
    unfold RampCoordinator.assign_clients, RampCoordinator.ramp_directives.
    by rewrite !fmap_imap. }
  split; [|split; [|split]].
  - intros s ms Htask Hstep Hlive.
    exists (Coordinator.ramp_directives i T (Coordinator.live s)).
    split; [|by apply imap_directives_partition].
    unfold Coordinator.step, Coordinator.ramp_resume.
    rewrite Htask, Hstep. rewrite decide_False; [done|].
    by destruct (Coordinator.live s).
  - intros s Hdue Hstep Hne s'.
    exists (RampCoordinator.ramp_directives i T (RampCoordinator.nodes s)).
    assert (Hs' : s' = RampCoordinator.iteration i s).
    { subst s'. unfold RampCoordinator.step, RampCoordinator.rampCluster_resume.
      by destruct Hdue as [[-> ->]|[-> ->]]. }
    rewrite Hs'. unfold RampCoordinator.iteration. rewrite Hstep.
    split; [done|].
    split; [by apply (imap_directives_partition RampCoordinator.ws)|].
    split; [|apply Hassign].
    unfold RampCoordinator.assign_clients. cbn [RampCoordinator.nodes].
    rewrite fmap_imap. apply list_eq. intros k.
    rewrite list_lookup_imap, list_lookup_fmap.
    by destruct (RampCoordinator.nodes s !! k).
  - intros ns Hne. by apply imap_directives_partition.
  - intros ns Hne. split; [|apply Hassign].
    by apply (imap_directives_partition RampCoordinator.ws).
Qed.

(** ** Metrics aggregation (part_000) *)

Section Aggregator.
Import Coordinator.

Lemma bind_Ok {A B} (f : A → outcome B) (a : A) : (Ok a ≫= f) = f a.
Proof. reflexivity. Qed.

Lemma forEachE_cons {A S} (body : S → A → outcome S) x l st :
  forEachE body (x :: l) st = body st x ≫= forEachE body l.
Proof. reflexivity. Qed.

Lemma is_active_spec now n b :
  is_active now n = Ok b → (b = true ↔ Active now n).
Proof.
  unfold is_active, Active. case_decide as Hfresh.
  - destruct (metrics n) as [m|]; [|done]. intros [= <-]. simpl.
    rewrite bool_decide_eq_true. tauto.
  - intros [= <-]. split; [done|]. intros [? _]. lia.
Qed.

Lemma is_active_finite now n : is_active now n ≠ NonFinite.
Proof.
  unfold is_active. case_decide; [|done]. by destruct (metrics n).
Qed.

Lemma filterE_is_active now l r :
  filterE (is_active now) l = Ok r → r = filter (Active now) l.
Proof.
  revert r. induction l as [|n l IH]; intros r; simpl.
  - by intros [= <-].
  - destruct (is_active now n) as [b| |] eqn:Hb; try done.
    rewrite bind_Ok.
    destruct (filterE (is_active now) l) as [r'| |]; try done.
    rewrite bind_Ok. intros [= <-].
    rewrite filter_cons, (IH r' eq_refl).
    apply is_active_spec in Hb.
    destruct b; case_decide; intuition congruence.
Qed.

Lemma filterE_is_active_finite now l : filterE (is_active now) l ≠ NonFinite.
Proof.
  induction l as [|n l IH]; simpl; [done|].
  destruct (is_active now n) as [b| |] eqn:Hb; try done.
  - rewrite bind_Ok.
    destruct (filterE (is_active now) l) as [r'| |]; done.
  - by apply is_active_finite in Hb.
Qed.

(** The filter completes when every fresh node carries a metrics object. *)
Lemma filterE_is_active_total now l :
  Forall (λ n, (now - lastReport n < 30000)%Z → is_Some (metrics n)) l →
  filterE (is_active now) l = Ok (filter (Active now) l).
Proof.
  induction 1 as [|n l Hn _ IH]; [done|]. simpl.
  destruct (is_active now n) as [b| |] eqn:Hb.
  - rewrite bind_Ok, IH, bind_Ok, filter_cons.
    apply is_active_spec in Hb.
    destruct b; case_decide; intuition congruence.
  - exfalso. unfold is_active in Hb. case_decide; [|done].
    destruct (Hn ltac:(done)) as [m Hm]. by rewrite Hm in Hb.
  - by apply is_active_finite in Hb.
Qed.

Lemma sumQc_cons x l : sumQc (x :: l) = x + sumQc l.
Proof. reflexivity. Qed.

Lemma field_sum_cons f n l :
  field_sum f (n :: l) = or0 (metrics n ≫= f) + field_sum f l.
Proof. reflexivity. Qed.

Lemma forEachE_accumulate l a :
  Forall (λ n, is_Some (metrics n)) l →
  forEachE accumulate l a
  = Ok {| totalClients := totalClients a + field_sum connected l;
          sumStartup := sumStartup a + field_sum avgStartup l;
          sumBitrate := sumBitrate a + field_sum avgBitrate l;
          sumBuffers := sumBuffers a + field_sum avgBuffers l;
          sumBufTime := sumBufTime a + field_sum avgBufferTime l;
          gauges := publish_nodes l (gauges a) |}.
Proof.
  intros Hl. revert a. induction Hl as [|n l [m Hm] _ IH]; intros a.
  - destruct a. simpl. unfold field_sum, sumQc. simpl.
    by rewrite !Qcplus_0_r.
  - assert (Hacc : accumulate a n = Ok (accumulate_with m (id n) a))
      by (unfold accumulate; by rewrite Hm).
    rewrite forEachE_cons, Hacc, bind_Ok, IH.
    rewrite !field_sum_cons, Hm. unfold publish_nodes. simpl. rewrite Hm.
    by rewrite !Qcplus_assoc.
Qed.

Lemma Active_has_metrics now n : Active now n → is_Some (metrics n).
Proof. intros [_ [v Hv]]. destruct (metrics n); [eauto | done]. Qed.

Lemma Qc_of_nat_nonzero n : n ≠ 0%nat → Qc_of_nat n ≠ 0.
Proof.
  intros Hn. unfold Qc_of_nat. rewrite <-Z2Qc_inj_0.
  intros ?%Z2Qc_inj. lia.
Qed.

Lemma js_div_Ok x y : y ≠ 0 → js_div x y = Ok (x / y).
Proof. intros Hy. unfold js_div. by case_decide. Qed.

Lemma dropRate_of_spec last total :
  dropRate_of last total = Ok (drop_rate_spec last total).
Proof.
  unfold dropRate_of, drop_rate_spec. case_decide as Hpos; [|done].
  rewrite js_div_Ok; [done|].
  intros ->. by apply Qclt_not_eq in Hpos.
Qed.

(** An aggregation whose filter returns a non-empty list ends in
    [aggregated]. *)
Lemma updatePromMetrics_nonempty now s active :
  active_nodes now s = Ok active → active ≠ [] →
  updatePromMetrics now s = Ok (aggregated s active).
Proof.
  intros Hact Hne. unfold updatePromMetrics. rewrite Hact, bind_Ok.
  assert (Hlen : length active ≠ 0%nat) by by destruct active.
  case_decide; [done|].
  rewrite forEachE_accumulate.
  2:{ apply filterE_is_active in Hact. subst active.
      apply list.Forall_forall. intros n [Hn _]%list_elem_of_filter.
      by eapply Active_has_metrics. }
  rewrite bind_Ok. simpl.
  rewrite !js_div_Ok by by apply Qc_of_nat_nonzero.
  rewrite !bind_Ok, dropRate_of_spec, bind_Ok.
  unfold aggregated, field_mean. by rewrite !Qcplus_0_l.
Qed.

Lemma updatePromMetrics_empty now s :
  active_nodes now s = Ok [] → updatePromMetrics now s = Ok s.
Proof. intros Hact. unfold updatePromMetrics. by rewrite Hact. Qed.

Lemma updatePromMetrics_finite now s : updatePromMetrics now s ≠ NonFinite.
Proof.
  destruct (active_nodes now s) as [active| |] eqn:Hact.
  - destruct active as [|n active].
    + by rewrite updatePromMetrics_empty.
    + by erewrite updatePromMetrics_nonempty.
  - unfold updatePromMetrics. by rewrite Hact.
  - by apply filterE_is_active_finite in Hact.
Qed.

End Aggregator.

Section AggregatorClaims.
Import Coordinator.

Lemma Math_max_spec x y :
  x ≤ Math_max x y ∧ y ≤ Math_max x y
  ∧ (Math_max x y = x ∨ Math_max x y = y).
Proof.
  unfold Math_max. case_decide as Hxy.
  - split; [done|]. split; [apply Qcle_refl | by right].
  - split; [apply Qcle_refl|]. split; [|by left].
    apply Qclt_le_weak. by apply Qcnot_le_lt.
Qed.

Lemma drop_rate_growth previousTotal total :
  previousTotal ≤ total → drop_rate_spec previousTotal total = 0.
Proof.
  intros Hle. unfold drop_rate_spec. case_decide as Hpos; [|done].
  assert (Hq : (previousTotal - total) / previousTotal ≤ 0).
  { unfold Qcdiv. rewrite <-(Qcmult_0_l (/ previousTotal)).
    apply Qcmult_le_mono_nonneg_r.
    - apply Qclt_le_weak. by apply Qcinv_pos.
    - apply (Qcplus_le_mono_r _ _ total).
      unfold Qcminus. rewrite <-Qcplus_assoc, (Qcplus_comm (- total)).
      by rewrite Qcplus_opp_r, Qcplus_0_r, Qcplus_0_l. }
  unfold Math_max. case_decide as H0; [|done].
  by apply Qcle_antisym.
Qed.

Lemma drop_rate_loss previousTotal total :
  0 ≤ total → total < previousTotal →
  drop_rate_spec previousTotal total
  = (previousTotal - total) / previousTotal.
Proof.
  intros Hnn Hlt.
  assert (Hpos : 0 < previousTotal) by by eapply Qcle_lt_trans.
  unfold drop_rate_spec. case_decide; [|done].
  unfold Math_max. case_decide as H0; [done|]. exfalso. apply H0.
  unfold Qcdiv. apply Qcmult_nonneg_nonneg.
  - apply (Qcplus_le_mono_r _ _ total).
    unfold Qcminus. rewrite <-Qcplus_assoc, (Qcplus_comm (- total)).
    rewrite Qcplus_opp_r, Qcplus_0_r, Qcplus_0_l. by apply Qclt_le_weak.
  - apply Qclt_le_weak. by apply Qcinv_pos.
Qed.

(** C4. In an aggregation with a non-empty active set the published drop
    rate is [max(0, (previousTotal - totalClients) / previousTotal)] when
    [previousTotal > 0] and [0] when [previousTotal = 0]; it is [0] whenever
    [totalClients >= previousTotal] and the plain quotient on a net loss; the
    stored previous total becomes [totalClients], the rate having been
    computed from the value stored before the call. *)
Theorem C4_drop_rate now s active :
  active_nodes now s = Ok active → active ≠ [] →
  let previousTotal := lastTotalClients s in
  let total := field_sum connected active in
  ∃ s', updatePromMetrics now s = Ok s'
    ∧ totalClientsGauge (cluster s') = total
    ∧ (0 < previousTotal →
       dropRateGauge (cluster s')
       = Math_max 0 ((previousTotal - total) / previousTotal))
    ∧ (previousTotal = 0 → dropRateGauge (cluster s') = 0)
    ∧ (previousTotal ≤ total → dropRateGauge (cluster s') = 0)
    ∧ (0 ≤ total → total < previousTotal →
       dropRateGauge (cluster s') = (previousTotal - total) / previousTotal)
    ∧ lastTotalClients s' = total.
Proof.
  intros Hact Hne previousTotal total.
  exists (aggregated s active). split; [by apply updatePromMetrics_nonempty|].
  simpl. fold previousTotal total. repeat split.
  - intros Hpos. unfold drop_rate_spec. by case_decide.
  - intros H0. unfold drop_rate_spec. case_decide as Hpos; [|done].
    rewrite H0 in Hpos. by apply Qclt_not_eq in Hpos.
  - apply drop_rate_growth.
  - apply drop_rate_loss.
Qed.

(** C5. An aggregation whose active set is empty returns with the whole
    state (every gauge and the stored previous total) as it was, and no
    aggregation ever divides by zero. *)
Theorem C5_empty_active_set now s :
  (active_nodes now s = Ok [] → updatePromMetrics now s = Ok s)
  ∧ updatePromMetrics now s ≠ NonFinite.
Proof.
  split; [apply updatePromMetrics_empty | apply updatePromMetrics_finite].
Qed.

(** When the filter of an aggregation returns, it returns exactly the
    registry nodes, in registry order, whose last report is less than
    30000 ms old and has a [connected] field; a node whose last report is
    30000 ms old or older is left out whatever it reported, and the totals and
    means are taken over the returned nodes alone.  The filter returns
    whenever every node with a report younger than 30000 ms has a metrics
    object. *)
Lemma active_set_when_filter_returns now s :
  (∀ active, active_nodes now s = Ok active →
     active = filter (Active now) (live s)
     ∧ (∀ n, n ∈ active ↔
             n ∈ live s ∧ (now - lastReport n < 30000)%Z
             ∧ ∃ m v, metrics n = Some m ∧ connected m = Some v)
     ∧ (∀ n, (30000 ≤ now - lastReport n)%Z → n ∉ active)
     ∧ (active ≠ [] → updatePromMetrics now s = Ok (aggregated s active)))
  ∧ (Forall (λ n, (now - lastReport n < 30000)%Z → is_Some (metrics n))
       (live s) →
     active_nodes now s = Ok (filter (Active now) (live s))).
Proof.
  split; [|apply filterE_is_active_total].
  intros active Hact. pose proof (filterE_is_active _ _ _ Hact) as Hfil.
  split; [done|]. split; [|split].
  - intros n. rewrite Hfil, list_elem_of_filter. unfold Active.
    destruct (metrics n) as [m|]; simpl.
    + split.
      * intros [[? [v Hv]] ?]. eauto 10.
      * intros (? & ? & m' & v & [= <-] & Hv). eauto.
    + split.
      * intros [[_ [v Hv]] _]. done.
      * intros (_ & _ & m' & v & Hm & _). done.
  - intros n Hstale. rewrite Hfil, list_elem_of_filter.
    intros [[Hfresh _] _]. lia.
  - intros Hne. by apply updatePromMetrics_nonempty.
Qed.

(** C7. In an aggregation with a non-empty active set of [A] nodes the
    published total is the sum of the [connected] counts of the active nodes
    (each of them has one), and each of the four QoE gauges is the sum of the
    node-level averages divided by [A], whatever the client counts of the
    nodes; a field missing from a report adds zero to its sum. *)
Theorem C7_totals_and_means now s active :
  active_nodes now s = Ok active → active ≠ [] →
  let A := Qc_of_Z (Z.of_nat (length active)) in
  let sum_of f := foldr Qcplus 0 ((λ n, or0 (metrics n ≫= f)) <$> active) in
  ∃ s', updatePromMetrics now s = Ok s'
    ∧ Forall (λ n, ∃ m v, metrics n = Some m ∧ connected m = Some v) active
    ∧ totalClientsGauge (cluster s') = sum_of connected
    ∧ avgStartupGauge (cluster s') = sum_of avgStartup / A
    ∧ avgBitrateGauge (cluster s') = sum_of avgBitrate / A
    ∧ avgBuffersGauge (cluster s') = sum_of avgBuffers / A
    ∧ avgBufferTimeGauge (cluster s') = sum_of avgBufferTime / A
    ∧ (∀ f n ns, metrics n ≫= f = None →
         foldr Qcplus 0 ((λ n, or0 (metrics n ≫= f)) <$> n :: ns)
         = foldr Qcplus 0 ((λ n, or0 (metrics n ≫= f)) <$> ns))
    ∧ (∀ f n ns v, metrics n ≫= f = Some v →
         foldr Qcplus 0 ((λ n, or0 (metrics n ≫= f)) <$> n :: ns)
         = v + foldr Qcplus 0 ((λ n, or0 (metrics n ≫= f)) <$> ns)).
Proof.
  intros Hact Hne A sum_of.
  exists (aggregated s active). split; [by apply updatePromMetrics_nonempty|].
  split.
  { apply filterE_is_active in Hact. subst active.
    apply list.Forall_forall. intros n [[_ [v Hv]] _]%list_elem_of_filter.
    destruct (metrics n) as [m|]; [eauto | done]. }
  repeat split.
  - intros f n ns Hf. fold (sumQc ((λ n, or0 (metrics n ≫= f)) <$> n :: ns)).
    fold (field_sum f (n :: ns)).
    by rewrite field_sum_cons, Hf, Qcplus_0_l.
  - intros f n ns v Hf. fold (sumQc ((λ n, or0 (metrics n ≫= f)) <$> n :: ns)).
    fold (field_sum f (n :: ns)).
    by rewrite field_sum_cons, Hf.
Qed.

End AggregatorClaims.

(** ** Witnesses of the aggregation theorems *)

Section AggregatorWitnesses.
Import Coordinator.

Lemma second_node_silent_active :
  active_nodes 33000 second_node_silent
  = Ok (filter (Active 33000) (live second_node_silent)).
Proof. vm_compute. reflexivity. Defined.

Lemma second_node_silent_nonempty :
  filter (Active 33000) (live second_node_silent) ≠ [].
Proof. vm_compute. discriminate. Defined.

Lemma C4_drop_rate_witness :
  id <$> filter (Active 33000) (live second_node_silent) = ["node-1"]
  ∧ lastTotalClients second_node_silent = Q2Qc 15
  ∧ ∃ s', updatePromMetrics 33000 second_node_silent = Ok s'
      ∧ totalClientsGauge (cluster s') = Q2Qc 10
      ∧ dropRateGauge (cluster s') = Q2Qc (1 # 3)
      ∧ lastTotalClients s' = Q2Qc 10.
Proof.
  split; [vm_compute; reflexivity|].
  split; [apply Qc_is_canon; vm_compute; reflexivity|].
  destruct (C4_drop_rate 33000 second_node_silent _
              second_node_silent_active second_node_silent_nonempty)
    as (s' & Hrun & Htot & _ & _ & _ & Hloss & Hlast).
  exists s'. split; [exact Hrun|].
  split; [rewrite Htot; apply Qc_is_canon; vm_compute; reflexivity|].
  split; [|rewrite Hlast; apply Qc_is_canon; vm_compute; reflexivity].
  rewrite Hloss.
  - apply Qc_is_canon. vm_compute. reflexivity.
  - vm_compute. discriminate.
  - vm_compute. reflexivity.
Defined.

Lemma C5_empty_active_set_witness :
  active_nodes 100000 two_reporting_nodes = Ok []
  ∧ totalClientsGauge (cluster two_reporting_nodes) = Q2Qc 15
  ∧ updatePromMetrics 100000 two_reporting_nodes = Ok two_reporting_nodes.
Proof.
  assert (Hact : active_nodes 100000 two_reporting_nodes = Ok [])
    by (vm_compute; reflexivity).
  split; [exact Hact|].
  split; [apply Qc_is_canon; vm_compute; reflexivity|].
  exact (proj1 (C5_empty_active_set 100000 two_reporting_nodes) Hact).
Defined.

Lemma three_qoe_nodes_active :
  active_nodes 4000 three_qoe_nodes
  = Ok (filter (Active 4000) (live three_qoe_nodes)).
Proof. vm_compute. reflexivity. Defined.

Lemma three_qoe_nodes_nonempty :
  filter (Active 4000) (live three_qoe_nodes) ≠ [].
Proof. vm_compute. discriminate. Defined.

(** Three active nodes with 10, 5 and 3 clients; startup 100 and 300,
    bitrate 1000 and 3000, buffer events 2 and 4, buffer time 40 and 60 from
    the first two, nothing from the third: total 18, means 400/3, 4000/3, 2
    and 100/3. *)
Lemma C7_totals_and_means_witness :
  length (filter (Active 4000) (live three_qoe_nodes)) = 3%nat
  ∧ ∃ s', updatePromMetrics 4000 three_qoe_nodes = Ok s'
      ∧ this (totalClientsGauge (cluster s')) = 18%Q
      ∧ this (avgStartupGauge (cluster s')) = (400 # 3)%Q
      ∧ this (avgBitrateGauge (cluster s')) = (4000 # 3)%Q
      ∧ this (avgBuffersGauge (cluster s')) = 2%Q
      ∧ this (avgBufferTimeGauge (cluster s')) = (100 # 3)%Q.
Proof.
  split; [vm_compute; reflexivity|].
  destruct (C7_totals_and_means 4000 three_qoe_nodes _
              three_qoe_nodes_active three_qoe_nodes_nonempty)
    as (s' & Hrun & _ & Htot & Hstartup & Hbitrate & Hbuffers & Htime & _).
  exists s'. split; [exact Hrun|].
  rewrite Htot, Hstartup, Hbitrate, Hbuffers, Htime.
  repeat split; vm_compute; reflexivity.
Defined.

End AggregatorWitnesses.

(** Three nodes, step index 4 with target 8 due: the wake-up sends 3, 3
    and 2 to the sockets 0, 1 and 2, in both programs. *)
Lemma C1_ramp_partition_witness :
  let s := three_nodes_step4_due in
  let t := cluster_three_nodes_step4_due in
  (Coordinator.rampTask s = Sleeping RAMP_INTERVAL_MS 4
   ∧ FIB_SEQUENCE !! 4%nat = Some 8%nat
   ∧ Coordinator.ws <$> Coordinator.live s = [0; 1; 2]%nat
   ∧ Coordinator.sent_for_step 4 (Coordinator.step s Coordinator.Wake)
     = [(0, Ramp 3 4); (1, Ramp 3 4); (2, Ramp 2 4)]%nat
   ∧ ∃ ds, Coordinator.sent (Coordinator.step s Coordinator.Wake)
           = Coordinator.sent s ++ ds
         ∧ partitions Coordinator.ws 4 8 (Coordinator.live s) ds)
  ∧ (RampCoordinator.task t = RampCoordinator.Awaiting
     ∧ RampCoordinator.currentStep t = 3%nat
     ∧ RampCoordinator.sent_for_step 4
         (RampCoordinator.step t RampCoordinator.Wake)
       = [(0, Ramp 3 4); (1, Ramp 3 4); (2, Ramp 2 4)]%nat
     ∧ RampCoordinator.clients
         <$> RampCoordinator.nodes (RampCoordinator.step t RampCoordinator.Wake)
       = [3; 3; 2]%nat
     ∧ ∃ ds, RampCoordinator.sent (RampCoordinator.step t RampCoordinator.Wake)
             = RampCoordinator.sent t ++ ds
           ∧ partitions RampCoordinator.ws 4 8 (RampCoordinator.nodes t) ds).
Proof.
  intros s t.
  assert (Htask : Coordinator.rampTask s = Sleeping RAMP_INTERVAL_MS 4)
    by (vm_compute; reflexivity).
  assert (Hstep : FIB_SEQUENCE !! 4%nat = Some 8%nat) by reflexivity.
  assert (Hlive : Coordinator.live s ≠ []) by (vm_compute; discriminate).
  assert (Hdue : RampCoordinator.task t = RampCoordinator.Scheduled
                   ∧ 4%nat = 0%nat
                 ∨ RampCoordinator.task t = RampCoordinator.Awaiting
                   ∧ 4%nat = S (RampCoordinator.currentStep t))
    by (right; split; vm_compute; reflexivity).
  assert (Hnodes : RampCoordinator.nodes t ≠ []) by (vm_compute; discriminate).
  split.
  - split; [exact Htask|]. split; [exact Hstep|].
    split; [vm_compute; reflexivity|]. split; [vm_compute; reflexivity|].
    exact (proj1 (C1_ramp_partition 4 8) s _ Htask Hstep Hlive).
  - split; [vm_compute; reflexivity|]. split; [vm_compute; reflexivity|].
    split; [vm_compute; reflexivity|]. split; [vm_compute; reflexivity|].
    destruct (proj1 (proj2 (C1_ramp_partition 4 8)) t Hdue Hstep Hnodes)
      as (ds & Hsent & Hpart & _).
    exists ds. split; [exact Hsent | exact Hpart].
Defined.

(** ** Registry *)

Lemma filter_twice {A} (P : A → Prop) `{!∀ x, Decision (P x)} (l : list A) :
  filter P (filter P l) = filter P l.
Proof. by apply list_filter_filter_l. Qed.

Lemma filter_all {A} (P : A → Prop) `{!∀ x, Decision (P x)} (l : list A) :
  Forall P l → filter P l = l.
Proof.
  induction 1 as [|x l Hx _ IH]; [done|].
  by rewrite filter_cons_True, IH.
Qed.

Lemma omap_cons {A B} (f : A → option B) (x : A) (l : list A) :
  omap f (x :: l) = match f x with Some y => y :: omap f l | None => omap f l end.
Proof. reflexivity. Qed.

Lemma omap_filter_sublist {A B} (f : A → option B) (P : A → Prop)
  `{!∀ x, Decision (P x)} (l : list A) :
  omap f (filter P l) `sublist_of` omap f l.
Proof.
  induction l as [|x l IH]; [done|].
  rewrite filter_cons. case_decide; csimpl; destruct (f x);
    auto using sublist_skip, sublist_cons.
Qed.

(** C8. Closing a socket removes its node from the registry; closing it
    again, or closing a socket whose node is not in the registry, changes
    nothing; the nodes that remain are the other nodes, in the order they had
    (part_000 and part_001). *)
Theorem C8_remove_idempotent :
  (∀ c s,
     Coordinator.on_close c (Coordinator.on_close c s)
     = Coordinator.on_close c s
     ∧ Coordinator.step (Coordinator.step s (Coordinator.Close c))
         (Coordinator.Close c)
       = Coordinator.step s (Coordinator.Close c)
     ∧ (c ∉ Coordinator.nodes (Coordinator.on_close c s))
     ∧ (c ∉ Coordinator.nodes s → Coordinator.on_close c s = s)
     ∧ (∀ r, r ∈ Coordinator.nodes (Coordinator.on_close c s)
             ↔ r ∈ Coordinator.nodes s ∧ r ≠ c)
     ∧ Coordinator.nodes (Coordinator.on_close c s)
       `sublist_of` Coordinator.nodes s
     ∧ Coordinator.live (Coordinator.on_close c s)
       `sublist_of` Coordinator.live s)
  ∧ (∀ c s,
       RampCoordinator.on_close c (RampCoordinator.on_close c s)
       = RampCoordinator.on_close c s
       ∧ RampCoordinator.step (RampCoordinator.step s (RampCoordinator.Close c))
           (RampCoordinator.Close c)
         = RampCoordinator.step s (RampCoordinator.Close c)
       ∧ (c ∉ (RampCoordinator.ws <$>
                 RampCoordinator.nodes (RampCoordinator.on_close c s)))
       ∧ (c ∉ (RampCoordinator.ws <$> RampCoordinator.nodes s) →
          RampCoordinator.on_close c s = s)
       ∧ (∀ n, n ∈ RampCoordinator.nodes (RampCoordinator.on_close c s)
               ↔ n ∈ RampCoordinator.nodes s ∧ RampCoordinator.ws n ≠ c)
       ∧ RampCoordinator.nodes (RampCoordinator.on_close c s)
         `sublist_of` RampCoordinator.nodes s).
Proof.
  split; intros c s.
  - assert (Hidem : Coordinator.on_close c (Coordinator.on_close c s)
                    = Coordinator.on_close c s).
    { unfold Coordinator.on_close. simpl. by rewrite filter_twice. }
    split; [exact Hidem|]. split; [|split; [|split; [|split; [|split]]]].
    + unfold Coordinator.step.
      destruct (decide (is_Some (Coordinator.heap s !! c))) as [Hc|Hc].
      * change (Coordinator.heap (Coordinator.on_close c s))
          with (Coordinator.heap s).
        by rewrite decide_True.
      * by rewrite decide_False.
    + simpl. rewrite list_elem_of_filter. tauto.
    + intros Hc. destruct s as [ns h k l cg pg st rt].
      unfold Coordinator.on_close. simpl in *. f_equal.
      apply filter_all, list.Forall_forall. by intros r Hr ->.
    + intros r. simpl. rewrite list_elem_of_filter. tauto.
    + simpl. apply sublist_filter.
    + unfold Coordinator.live. simpl. apply omap_filter_sublist.
  - assert (Hidem : RampCoordinator.on_close c (RampCoordinator.on_close c s)
                    = RampCoordinator.on_close c s).
    { unfold RampCoordinator.on_close. simpl. by rewrite filter_twice. }
    split; [exact Hidem|]. split; [|split; [|split; [|split]]].
    + unfold RampCoordinator.step.
      destruct (decide (c < RampCoordinator.nextConn s)%nat) as [Hc|Hc].
      * change (RampCoordinator.nextConn (RampCoordinator.on_close c s))
          with (RampCoordinator.nextConn s).
        by rewrite decide_True.
      * by rewrite decide_False.
    + simpl. rewrite list_elem_of_fmap.
      intros (n & -> & Hn). apply list_elem_of_filter in Hn. tauto.
    + intros Hc. destruct s as [ns k i st t].
      unfold RampCoordinator.on_close. simpl in *. f_equal.
      apply filter_all, list.Forall_forall. intros n Hn Heq.
      apply Hc, list_elem_of_fmap. eauto.
    + intros n. simpl. rewrite list_elem_of_filter. tauto.
    + simpl. apply sublist_filter.
Qed.

(** A socket that never joined is not in the registry: closing it is a
    no-op, and so is closing socket 0 twice after two nodes joined. *)
Lemma C8_remove_idempotent_witness :
  let s := Coordinator.run Coordinator.init
             [Coordinator.Connect 0; Coordinator.Connect 0] in
  (7%nat ∉ Coordinator.nodes s)
  ∧ Coordinator.on_close 7 s = s
  ∧ Coordinator.nodes (Coordinator.on_close 0 s) = [1%nat].
Proof.
  intros s.
  assert (Hc : 7%nat ∉ Coordinator.nodes s)
    by (apply (bool_decide_unpack _); vm_compute; exact I).
  split; [exact Hc|]. split; [|vm_compute; reflexivity].
  exact (proj1 (proj2 (proj2 (proj2 (proj1 C8_remove_idempotent 7%nat s)))) Hc).
Defined.

Section LateReport.
Import Coordinator.

Lemma live_record_report c now payload s :
  c ∉ nodes s → live (record_report c now payload s) = live s.
Proof.
  unfold live. simpl. induction (nodes s) as [|r l IH]; [done|].
  intros [Hr Hl]%not_elem_of_cons. csimpl.
  rewrite lookup_alter_ne by done. by rewrite IH.
Qed.

(** The handler is a closure over its node object and looks nothing up in
    the registry: called for a socket whose node is outside the registry it
    would write that detached object and aggregate over the registry as it
    is.  No late frame is dropped by the handler itself; [step] calls it
    for the sockets of the registry only. *)
Lemma handler_has_no_registry_lookup now c payload s :
  c ∉ nodes s →
  let s' := on_message c (Data (Some "report") payload) now s in
  nodes s' = nodes s
  ∧ live s' = live s
  ∧ (∀ r, r ≠ c → heap s' !! r = heap s !! r)
  ∧ ∃ s2, (updatePromMetrics now s = Ok s2
           ∨ updatePromMetrics now s = TypeError ∧ s2 = s)
        ∧ cluster s' = cluster s2
        ∧ perNode s' = perNode s2
        ∧ lastTotalClients s' = lastTotalClients s2.
Proof.
  intros Hc s'. subst s'. unfold on_message. rewrite decide_True by done.
  set (s1 := record_report c now payload s).
  pose proof (live_record_report c now payload s Hc) as Hlive. fold s1 in Hlive.
  assert (Hheap : ∀ r, r ≠ c → heap s1 !! r = heap s !! r).
  { intros r Hr. subst s1. simpl. by rewrite lookup_alter_ne. }
  assert (Hactive : active_nodes now s1 = active_nodes now s)
    by (unfold active_nodes; by rewrite Hlive).
  destruct (active_nodes now s) as [active| |] eqn:Hact.
  - destruct active as [|n active].
    + rewrite (updatePromMetrics_empty now s1 Hactive).
      repeat split; [done..|]. exists s.
      split; [left; by apply updatePromMetrics_empty|done].
    + rewrite (updatePromMetrics_nonempty now s1 (n :: active) Hactive)
        by done.
      repeat split; [done..|]. exists (aggregated s (n :: active)).
      split; [left; by apply updatePromMetrics_nonempty|done].
  - assert (Hthrow : ∀ t, active_nodes now t = TypeError →
                          updatePromMetrics now t = TypeError).
    { intros t Ht. unfold updatePromMetrics. by rewrite Ht. }
    rewrite (Hthrow s1 Hactive).
    repeat split; [done..|]. exists s. split; [right; auto|done].
  - by apply filterE_is_active_finite in Hact.
Qed.

End LateReport.

Section LateReportCases.
Import Coordinator.


End LateReportCases.

(** ** Ramp scheduler on an empty registry *)

(** Both branches of the loop body of [ramp] end an iteration, so the
    iterator moves on whether or not directives were sent. *)
Lemma ramp_resume_no_nodes s ms i total :
  Coordinator.rampTask s = Sleeping ms i →
  FIB_SEQUENCE !! i = Some total →
  Coordinator.live s = [] →
  Coordinator.rampTask (Coordinator.ramp_resume s) = Sleeping 5000 (S i)
  ∧ Coordinator.sent (Coordinator.ramp_resume s) = Coordinator.sent s.
Proof.
  intros Htask Hstep Hlive. unfold Coordinator.ramp_resume.
  rewrite Htask, Hstep, Hlive. simpl. done.
Qed.

Lemma ramp_resume_ships s ms i total :
  Coordinator.rampTask s = Sleeping ms i →
  FIB_SEQUENCE !! i = Some total →
  Coordinator.live s ≠ [] →
  Coordinator.rampTask (Coordinator.ramp_resume s)
  = Sleeping RAMP_INTERVAL_MS (S i)
  ∧ Coordinator.sent (Coordinator.ramp_resume s)
    = Coordinator.sent s
      ++ Coordinator.ramp_directives i total (Coordinator.live s).
Proof.
  intros Htask Hstep Hlive. unfold Coordinator.ramp_resume.
  rewrite Htask, Hstep. rewrite decide_False; [done|].
  by destruct (Coordinator.live s).
Qed.

(** C2 (the code at the failing input). Step index 4 falls due with no node
    connected: [ramp] sleeps 5000 ms and leaves the iterator at entry 5, and
    once a node has joined, the next wake-up ships step 5 (target 13); no
    directive of step 4 is ever sent.  Likewise step 0 is never sent when the
    first node joins after the start timer.  [rampCluster] has no test at
    all: it
    sleeps the full interval and increments [currentStep] to 5 likewise. *)
Theorem C2_step_skipped_on_empty_registry :
  (Coordinator.live step4_due = []
   ∧ Coordinator.rampTask step4_due = Sleeping RAMP_INTERVAL_MS 4
   ∧ Coordinator.rampTask (Coordinator.step step4_due Coordinator.Wake)
     = Sleeping 5000 5
   ∧ let s := Coordinator.run step4_due
                [Coordinator.Wake; Coordinator.Connect 0; Coordinator.Wake] in
     Coordinator.sent_for_step 4 s = []
     ∧ Coordinator.sent_for_step 5 s = [(1%nat, Ramp 13 5)]
     ∧ Coordinator.rampTask s = Sleeping RAMP_INTERVAL_MS 6)
  ∧ (let s := Coordinator.run Coordinator.init
                [Coordinator.Wake; Coordinator.Connect 0; Coordinator.Wake] in
     Coordinator.sent_for_step 0 s = []
     ∧ Coordinator.sent_for_step 1 s = [(0%nat, Ramp 2 1)])
  ∧ (RampCoordinator.nodes cluster_step4_due = []
     ∧ RampCoordinator.currentStep cluster_step4_due = 3%nat
     ∧ RampCoordinator.currentStep
         (RampCoordinator.step cluster_step4_due RampCoordinator.Wake) = 4%nat
     ∧ let s := RampCoordinator.run cluster_step4_due
                  [RampCoordinator.Wake; RampCoordinator.Connect;
                   RampCoordinator.Wake] in
       RampCoordinator.sent_for_step 4 s = []
       ∧ RampCoordinator.sent_for_step 5 s = [(1%nat, Ramp 13 5)]
       ∧ RampCoordinator.currentStep s = 5%nat).
Proof. vm_compute. repeat split; reflexivity. Qed.

(** ** Node identifiers *)

(** C3 (the code at the failing input). Two nodes join, the first
    disconnects, a third joins: the registry then has one node, so the third
    is registered as ["node-2"] while the second, still connected, is
    ["node-2"] too (part_000 and part_001). *)
Theorem C3_identifier_reused :
  (let s := Coordinator.run Coordinator.init churn in
   Coordinator.sent s
   = [(0%nat, Register "node-1"); (1%nat, Register "node-2");
      (2%nat, Register "node-2")]
   ∧ Coordinator.id <$> Coordinator.live s = ["node-2"; "node-2"]
   ∧ Coordinator.ws <$> Coordinator.live s = [1%nat; 2%nat])
  ∧ (let s := RampCoordinator.run RampCoordinator.init cluster_churn in
     RampCoordinator.sent s
     = [(0%nat, Register "node-1"); (1%nat, Register "node-2");
        (2%nat, Register "node-2")]
     ∧ RampCoordinator.id <$> RampCoordinator.nodes s = ["node-2"; "node-2"]
     ∧ RampCoordinator.ws <$> RampCoordinator.nodes s = [1%nat; 2%nat]).
Proof. vm_compute. repeat split; reflexivity. Qed.

(** ** Per-node gauges *)

Section PerNodeGauges.
Import Coordinator.

Lemma node_figures_set i j m g :
  i ≠ j → node_figures i (set_node_gauges j m g) = node_figures i g.
Proof.
  intros Hij. unfold node_figures, set_node_gauges. simpl.
  by rewrite !lookup_insert_ne.
Qed.

Lemma publish_nodes_cons n ns g :
  publish_nodes (n :: ns) g
  = publish_nodes ns (match metrics n with
                      | Some m => set_node_gauges (id n) m g
                      | None => g
                      end).
Proof. reflexivity. Qed.

Lemma node_figures_publish i ns g :
  i ∉ (id <$> ns) → node_figures i (publish_nodes ns g) = node_figures i g.
Proof.
  revert g. induction ns as [|n ns IH]; intros g Hi; [done|].
  rewrite fmap_cons, not_elem_of_cons in Hi. destruct Hi as [Hn Hns].
  rewrite publish_nodes_cons, IH by done.
  destruct (metrics n) as [m|]; [|done].
  by apply node_figures_set.
Qed.

(** X1. An aggregation leaves the figures of every label that is not the id of
    an active node as they were. *)
Lemma per_node_figures_frame now s s' active i :
  active_nodes now s = Ok active →
  updatePromMetrics now s = Ok s' →
  i ∉ (id <$> active) →
  node_figures i (perNode s') = node_figures i (perNode s).
Proof.
  intros Hact Hrun Hi. destruct active as [|n active].
  - rewrite updatePromMetrics_empty in Hrun by done. by injection Hrun as <-.
  - rewrite (updatePromMetrics_nonempty now s (n :: active)) in Hrun by done.
    injection Hrun as <-.
    change (perNode (aggregated s (n :: active)))
      with (publish_nodes (n :: active) (perNode s)).
    by apply node_figures_publish.
Qed.

(** C10 (the code at the failing input). After [churn] the nodes of sockets
    1 and 2 both carry the id ["node-2"].  Socket 1 reports a CPU load of
    1/2, which is published under ["node-2"]; it then leaves the active set,
    by disconnecting or by staying silent for 39 s, and the next report of
    socket 2 replaces the figure under ["node-2"] by 9/10. *)
Theorem C10_figures_overwritten_by_shared_id :
  let next load now := Message 2 (report (loaded load)) now in
  let gone := run shared_id_published [Close 1; next (Q2Qc (9 # 10)) 2000%Z] in
  let stale := run shared_id_published [next (Q2Qc (9 # 10)) 40000%Z] in
  id <$> heap shared_id_published !! 1%nat = Some "node-2"
  ∧ id <$> heap shared_id_published !! 2%nat = Some "node-2"
  ∧ this <$> nodeCpuGauge (perNode shared_id_published) !! "node-2"
    = Some (1 # 2)%Q
  ∧ ws <$> live gone = [2%nat]
  ∧ this <$> nodeCpuGauge (perNode gone) !! "node-2" = Some (9 # 10)%Q
  ∧ ws <$> live stale = [1%nat; 2%nat]
  ∧ match active_nodes 40000
            (record_report 2 40000 (Some (loaded (Q2Qc (9 # 10))))
               shared_id_published) with
    | Ok active => ws <$> active
    | _ => []
    end = [2%nat]
  ∧ this <$> nodeCpuGauge (perNode stale) !! "node-2" = Some (9 # 10)%Q.
Proof. vm_compute. repeat split; reflexivity. Qed.

End PerNodeGauges.

(** ** Registry invariant (part_000) *)

Section RegistryInvariant.
Import Coordinator.

Lemma updatePromMetrics_registry now s s' :
  updatePromMetrics now s = Ok s' →
  nodes s' = nodes s ∧ heap s' = heap s ∧ nextConn s' = nextConn s.
Proof.
  intros Hrun. destruct (active_nodes now s) as [active| |] eqn:Hact.
  - destruct active as [|n active].
    + rewrite updatePromMetrics_empty in Hrun by done. by injection Hrun as <-.
    + rewrite (updatePromMetrics_nonempty now s (n :: active)) in Hrun by done.
      by injection Hrun as <-.
  - unfold updatePromMetrics in Hrun. by rewrite Hact in Hrun.
  - by apply filterE_is_active_finite in Hact.
Qed.

Lemma registry_wf_ext s t :
  nodes t = nodes s → heap t = heap s → nextConn t = nextConn s →
  registry_wf s → registry_wf t.
Proof. unfold registry_wf. by intros -> -> ->. Qed.

Lemma on_connection_wf now s : registry_wf s → registry_wf (on_connection now s).
Proof.
  intros (Hnd & Hlt & Hheap & Hws). unfold registry_wf. simpl.
  split; [|split; [|split]].
  - apply NoDup_app. split; [done|]. split; [|apply NoDup_singleton].
    intros r Hr ->%list_elem_of_singleton. apply Hlt in Hr. lia.
  - intros r [Hr| ->%list_elem_of_singleton]%elem_of_app; [|lia].
    apply Hlt in Hr. lia.
  - intros r. destruct (decide (r = nextConn s)) as [->|Hr].
    + rewrite lookup_insert_eq. split; [lia | eauto].
    + rewrite lookup_insert_ne by done. rewrite Hheap. lia.
  - intros r n. destruct (decide (r = nextConn s)) as [->|Hr].
    + rewrite lookup_insert_eq. by intros [= <-].
    + rewrite lookup_insert_ne by done. apply Hws.
Qed.

Lemma on_close_wf c s : registry_wf s → registry_wf (on_close c s).
Proof.
  intros (Hnd & Hlt & Hheap & Hws). unfold registry_wf. simpl.
  split; [by apply NoDup_filter|]. split; [|done].
  intros r [_ Hr]%list_elem_of_filter. by apply Hlt.
Qed.

Lemma record_report_wf c now payload s :
  registry_wf s → registry_wf (record_report c now payload s).
Proof.
  intros (Hnd & Hlt & Hheap & Hws). unfold registry_wf. simpl.
  split; [done|]. split; [done|]. split.
  - intros r. rewrite <-Hheap. destruct (decide (c = r)) as [->|Hr].
    + rewrite lookup_alter_eq. by rewrite fmap_is_Some.
    + by rewrite lookup_alter_ne.
  - intros r n. destruct (decide (c = r)) as [->|Hr].
    + rewrite lookup_alter_eq. destruct (heap s !! r) as [n'|] eqn:Hn'; [|done].
      intros [= <-]. simpl. by apply Hws.
    + rewrite lookup_alter_ne by done. apply Hws.
Qed.

Lemma on_message_wf c msg now s :
  registry_wf s → registry_wf (on_message c msg now s).
Proof.
  intros Hwf. unfold on_message. destruct msg as [|type payload]; [done|].
  case_decide; [|done].
  pose proof (record_report_wf c now payload s Hwf) as Hwf1.
  destruct (updatePromMetrics now (record_report c now payload s))
    as [s2| |] eqn:Hrun; [|done..].
  destruct (updatePromMetrics_registry _ _ _ Hrun) as (? & ? & ?).
  by eapply registry_wf_ext.
Qed.

Lemma ramp_resume_wf s : registry_wf s → registry_wf (ramp_resume s).
Proof.
  intros Hwf. unfold ramp_resume.
  destruct (rampTask s) as [ms i|]; [|done].
  destruct (FIB_SEQUENCE !! i); [case_decide|]; by eapply registry_wf_ext.
Qed.

Lemma step_wf s e : registry_wf s → registry_wf (step s e).
Proof.
  intros Hwf. destruct e as [now|c msg now|c|]; simpl.
  - by apply on_connection_wf.
  - case_decide; [by apply on_message_wf | done].
  - case_decide; [by apply on_close_wf | done].
  - by apply ramp_resume_wf.
Qed.

(** Every state the event loop reaches satisfies the invariant. *)
Lemma run_wf es s : registry_wf s → registry_wf (run s es).
Proof.
  revert s. induction es as [|e es IH]; intros s Hwf; [done|].
  apply IH. by apply step_wf.
Qed.

Lemma init_wf : registry_wf init.
Proof.
  unfold registry_wf. simpl. split; [apply NoDup_nil_2|].
  split; [by intros r ?%elem_of_nil|]. split.
  - intros r. rewrite lookup_empty. split; [by intros [? ?] | lia].
  - intros r n. by rewrite lookup_empty.
Qed.

(** Under the invariant the array [nodes] and the list of objects it refers
    to have the same length, and the object at each position is the one of
    the socket recorded there. *)
Lemma live_registry s :
  registry_wf s → ws <$> live s = nodes s.
Proof.
  intros (_ & Hlt & Hheap & Hws). unfold live.
  induction (nodes s) as [|r l IH]; [done|].
  destruct (proj2 (Hheap r) (Hlt r ltac:(left))) as [n Hn].
  rewrite omap_cons. cbv beta. rewrite Hn, fmap_cons, (Hws r n Hn). f_equal.
  apply IH. intros r' Hr'. apply Hlt. by right.
Qed.

End RegistryInvariant.

(** * Runs of the part_000 event loop *)

Section CoordinatorRuns.
Import Coordinator.

Lemma run_snoc s es e : run s (es ++ [e]) = step (run s es) e.
Proof. unfold run. by rewrite foldl_snoc. Qed.

Lemma run_cons s e es : run s (e :: es) = run (step s e) es.
Proof. reflexivity. Qed.

Lemma count_events_snoc {E} (p : E → bool) es e :
  count_events p (es ++ [e])
  = (count_events p es + if p e then 1 else 0)%nat.
Proof.
  unfold count_events. rewrite list.filter_app, length_app. f_equal.
  rewrite filter_cons, filter_nil. destruct (p e); by case_decide.
Qed.

Lemma updatePromMetrics_frame now s s' :
  updatePromMetrics now s = Ok s' →
  nodes s' = nodes s ∧ heap s' = heap s ∧ nextConn s' = nextConn s
  ∧ sent s' = sent s ∧ rampTask s' = rampTask s.
Proof.
  intros Hrun. destruct (active_nodes now s) as [active| |] eqn:Hact.
  - destruct active as [|n active].
    + rewrite updatePromMetrics_empty in Hrun by done. by injection Hrun as <-.
    + rewrite (updatePromMetrics_nonempty now s (n :: active)) in Hrun by done.
      by injection Hrun as <-.
  - unfold updatePromMetrics in Hrun. by rewrite Hact in Hrun.
  - by apply filterE_is_active_finite in Hact.
Qed.

Lemma on_message_frame c msg now s :
  nodes (on_message c msg now s) = nodes s
  ∧ nextConn (on_message c msg now s) = nextConn s
  ∧ sent (on_message c msg now s) = sent s
  ∧ rampTask (on_message c msg now s) = rampTask s.
Proof.
  unfold on_message. destruct msg as [|type payload]; [done|].
  case_decide; [|done].
  destruct (updatePromMetrics now (record_report c now payload s))
    as [s2| |] eqn:Hrun; [|done..].
  by destruct (updatePromMetrics_frame _ _ _ Hrun) as (-> & _ & -> & -> & ->).
Qed.

Lemma on_message_heap c msg now s :
  heap (on_message c msg now s) = heap s
  ∨ ∃ payload, heap (on_message c msg now s)
               = alter (reported now payload) c (heap s).
Proof.
  unfold on_message. destruct msg as [|type payload]; [by left|].
  case_decide; [|by left]. right. exists payload.
  destruct (updatePromMetrics now (record_report c now payload s))
    as [s2| |] eqn:Hrun; [|done..].
  by destruct (updatePromMetrics_frame _ _ _ Hrun) as (_ & -> & _).
Qed.

Lemma ramp_resume_frame s :
  nodes (ramp_resume s) = nodes s ∧ heap (ramp_resume s) = heap s
  ∧ nextConn (ramp_resume s) = nextConn s
  ∧ snapshot (ramp_resume s) = snapshot s.
Proof.
  unfold ramp_resume. destruct (rampTask s) as [ms i|]; [|done].
  destruct (FIB_SEQUENCE !! i); [case_decide|]; done.
Qed.

(** X2. The handler of a frame changes neither the registry nor the log of sent
    messages nor the ramp coroutine, keeps [id] and [ws] of every node
    object and touches no node object but the one of its own socket; a frame
    that does not parse, or whose [type] is not ["report"], changes nothing
    at all. *)
Theorem message_handler_frame c msg now s :
  let s' := on_message c msg now s in
  nodes s' = nodes s
  ∧ sent s' = sent s
  ∧ rampTask s' = rampTask s
  ∧ (∀ r, r ≠ c → heap s' !! r = heap s !! r)
  ∧ (∀ r, id <$> heap s' !! r = id <$> heap s !! r)
  ∧ (∀ r, ws <$> heap s' !! r = ws <$> heap s !! r)
  ∧ (msg = Unparseable → s' = s)
  ∧ (∀ type payload, msg = Data type payload → type ≠ Some "report" →
       s' = s).
Proof.
  intros s'. subst s'.
  destruct (on_message_frame c msg now s) as (Hn & _ & Hs & Hr).
  split; [done|]. split; [done|]. split; [done|].
  assert (Hheap : ∀ r, (r ≠ c → heap (on_message c msg now s) !! r = heap s !! r)
            ∧ id <$> heap (on_message c msg now s) !! r = id <$> heap s !! r
            ∧ ws <$> heap (on_message c msg now s) !! r = ws <$> heap s !! r).
  { intros r. destruct (on_message_heap c msg now s) as [->|[payload ->]];
      [done|].
    destruct (decide (c = r)) as [->|Hne].
    - rewrite lookup_alter_eq. split; [done|]. by destruct (heap s !! r).
    - by rewrite lookup_alter_ne. }
  split; [intros r; apply Hheap|]. split; [intros r; apply Hheap|].
  split; [intros r; apply Hheap|]. split.
  - by intros ->.
  - intros type payload -> Htype. unfold on_message. by rewrite decide_False.
Qed.

Lemma step_snapshot s e : is_report e = false → snapshot (step s e) = snapshot s.
Proof.
  destruct e as [now|c msg now|c|]; simpl; intros He.
  - done.
  - case_decide; [|done]. destruct msg as [|type payload]; [done|].
    apply bool_decide_eq_false in He. unfold on_message.
    by rewrite decide_False.
  - by case_decide.
  - apply ramp_resume_frame.
Qed.

(** X3. Only the handling of a ["report"] frame changes the gauges and the
    stored previous total: over any run without one (connections,
    disconnects, ramp wake-ups, other frames) they stay as they were; in
    particular a disconnect does not lower the published total. *)
Theorem snapshot_changes_only_on_report s es :
  Forall (λ e, is_report e = false) es →
  snapshot (run s es) = snapshot s.
Proof.
  revert s. induction es as [|e es IH]; intros s Hes; [done|].
  apply Forall_cons in Hes as [He Hes].
  rewrite run_cons, IH by done. by apply step_snapshot.
Qed.

(** After the second node has joined, reported and left, the published total
    still counts its 5 clients. *)
Lemma snapshot_changes_only_on_report_witness :
  let es := [Close 1; Wake; Connect 50000;
             Message 0 (Data (Some "ping") None) 60000] in
  Forall (λ e, is_report e = false) es
  ∧ snapshot (run two_reporting_nodes es) = snapshot two_reporting_nodes
  ∧ this (totalClientsGauge (cluster (run two_reporting_nodes es))) = 15%Q.
Proof.
  intros es.
  assert (Hes : Forall (λ e, is_report e = false) es)
    by (repeat constructor).
  split; [exact Hes|]. split; [|vm_compute; reflexivity].
  exact (snapshot_changes_only_on_report two_reporting_nodes es Hes).
Defined.

Lemma FIB_SEQUENCE_lookup i :
  (i < 14)%nat ↔ is_Some (FIB_SEQUENCE !! i).
Proof. rewrite lookup_lt_is_Some. done. Qed.

Lemma step_rampTask s e :
  is_wake e = false → rampTask (step s e) = rampTask s.
Proof.
  destruct e as [now|c msg now|c|]; simpl; intros He; [done| | |done].
  - case_decide; [|done]. apply on_message_frame.
  - by case_decide.
Qed.

Lemma ramp_resume_task s :
  rampTask (ramp_resume s)
  = match rampTask s with
    | Sleeping _ i =>
        if decide (i < 14)%nat
        then Sleeping (if decide (length (live s) = 0%nat)
                       then 5000 else RAMP_INTERVAL_MS) (S i)
        else Finished
    | Finished => Finished
    end.
Proof.
  unfold ramp_resume. destruct (rampTask s) as [ms i|] eqn:Htask; [|done].
  destruct (decide (i < 14)%nat) as [Hi|Hi].
  - apply FIB_SEQUENCE_lookup in Hi as [total ->]. by case_decide.
  - destruct (FIB_SEQUENCE !! i) as [total|] eqn:Hl; [|done].
    exfalso. apply Hi, FIB_SEQUENCE_lookup. eauto.
Qed.

(** X4. The ramp iterator advances by exactly one entry per wake-up of the
    coroutine, whatever the registry holds and whatever happens in between:
    after [k <= 14] wake-ups it is asleep (for 5000 or 120000 ms) before
    entry [k], and from the 15th wake-up on it has returned for good. *)
Theorem ramp_position_counts_wakeups es :
  match rampTask (run init es) with
  | Sleeping ms i =>
      i = count_events is_wake es ∧ (i ≤ 14)%nat
      ∧ (ms = 5000%Z ∨ ms = RAMP_INTERVAL_MS)
  | Finished => (14 < count_events is_wake es)%nat
  end.
Proof.
  induction es as [|e es IH] using rev_ind.
  - simpl. split; [done|]. split; [lia | by left].
  - rewrite run_snoc, count_events_snoc.
    destruct (is_wake e) eqn:He.
    + destruct e; try done. simpl. rewrite ramp_resume_task.
      destruct (rampTask (run init es)) as [ms i|]; [|lia].
      destruct IH as (-> & Hle & _). case_decide; [|lia].
      split; [lia|]. split; [lia|]. case_decide; auto.
    + rewrite step_rampTask by done.
      destruct (rampTask (run init es)); [|lia].
      by rewrite Nat.add_0_r.
Qed.

(** X5. The registry of every reachable state lists sockets that have connected
    and not closed, in the order they connected: it is a subsequence of
    [0, 1, .., nextConn - 1], where [nextConn] counts the connections so far,
    and the object at each position is the node object of that socket. *)
Theorem registry_in_admission_order es :
  let s := run init es in
  nodes s `sublist_of` seq 0 (nextConn s)
  ∧ nextConn s = count_events is_connect es
  ∧ ws <$> live s = nodes s
  ∧ length (live s) = length (nodes s).
Proof.
  intros s. subst s.
  assert (Hlive : ws <$> live (run init es) = nodes (run init es))
    by apply live_registry, run_wf, init_wf.
  assert (Hmain : nodes (run init es) `sublist_of` seq 0 (nextConn (run init es))
                  ∧ nextConn (run init es) = count_events is_connect es).
  { clear Hlive. induction es as [|e es [IHs IHn]] using rev_ind; [done|].
    rewrite run_snoc, count_events_snoc.
    destruct e as [now|c msg now|c|]; unfold step;
      [change (is_connect (Connect now)) with true
      |change (is_connect (Message c msg now)) with false
      |change (is_connect (Close c)) with false
      |change (is_connect Wake) with false].
    - change (nodes (on_connection now (run init es)))
        with (nodes (run init es) ++ [nextConn (run init es)]).
      change (nextConn (on_connection now (run init es)))
        with (S (nextConn (run init es))).
      rewrite seq_S. split; [by apply sublist_app | lia].
    - rewrite Nat.add_0_r. case_decide; [|done].
      destruct (on_message_frame c msg now (run init es)) as (-> & -> & _).
      done.
    - rewrite Nat.add_0_r. case_decide; [|done]. split; [|done].
      etrans; [apply sublist_filter | done].
    - rewrite Nat.add_0_r.
      destruct (ramp_resume_frame (run init es)) as (-> & _ & -> & _).
      done. }
  destruct Hmain as [Hsub Hn]. repeat split; try done.
  by rewrite <-Hlive, length_fmap.
Qed.

End CoordinatorRuns.

(** * Reports and the aggregation they trigger (part_000) *)

Section Reports.
Import Coordinator.

Lemma is_active_throws now n :
  is_active now n = TypeError ↔ fresh_without_metrics now n.
Proof.
  unfold is_active, fresh_without_metrics. case_decide.
  - destruct (metrics n); split; try done. by intros [_ ?].
  - split; [done|]. intros [? _]. lia.
Qed.

Lemma filterE_is_active_throws now l :
  filterE (is_active now) l = TypeError
  ↔ Exists (fresh_without_metrics now) l.
Proof.
  induction l as [|n l IH].
  - split; [done|]. by intros ?%Exists_nil.
  - rewrite Exists_cons, <-IH, <-is_active_throws. simpl.
    destruct (is_active now n) as [b| |] eqn:Hb.
    + rewrite bind_Ok.
      destruct (filterE (is_active now) l) as [r| |]; simpl;
        intuition congruence.
    + simpl. intuition congruence.
    + by apply is_active_finite in Hb.
Qed.

Lemma updatePromMetrics_throws now s :
  updatePromMetrics now s = TypeError
  ↔ Exists (fresh_without_metrics now) (live s).
Proof.
  rewrite <-filterE_is_active_throws. fold (active_nodes now s).
  destruct (active_nodes now s) as [active| |] eqn:Hact.
  - destruct active as [|n active].
    + by rewrite updatePromMetrics_empty.
    + by erewrite updatePromMetrics_nonempty.
  - unfold updatePromMetrics. by rewrite Hact.
  - by apply filterE_is_active_finite in Hact.
Qed.

(** X6. The filter of an aggregation throws exactly when some node of the
    registry has a report younger than 30000 ms that carried no metrics
    object (for an older report the test stops at the age); and when the
    filter throws, so does the aggregation. *)
Theorem active_filter_throws_iff now s :
  (active_nodes now s = TypeError
   ↔ ∃ n, n ∈ live s ∧ (now - lastReport n < 30000)%Z ∧ metrics n = None)
  ∧ (active_nodes now s = TypeError → updatePromMetrics now s = TypeError).
Proof.
  split.
  - unfold active_nodes. rewrite filterE_is_active_throws, Exists_exists.
    unfold fresh_without_metrics. split.
    + intros (n & Hn & Hfresh & Hm). eauto.
    + intros (n & Hn & Hfresh & Hm). eauto.
  - intros Hact. unfold updatePromMetrics. fold (active_nodes now s).
    by rewrite Hact.
Qed.

Lemma live_record_report_wf c now payload s :
  registry_wf s →
  live (record_report c now payload s)
  = (λ n, if decide (ws n = c) then reported now payload n else n) <$> live s.
Proof.
  intros (_ & _ & _ & Hws). unfold live.
  change (heap (record_report c now payload s))
    with (alter (reported now payload) c (heap s)).
  change (nodes (record_report c now payload s)) with (nodes s).
  induction (nodes s) as [|r l IH]; [done|]. csimpl.
  destruct (decide (c = r)) as [->|Hne].
  - rewrite lookup_alter_eq. destruct (heap s !! r) as [n|] eqn:Hn; csimpl;
      [|exact IH].
    rewrite decide_True by by apply Hws. by rewrite IH.
  - rewrite lookup_alter_ne by done.
    destruct (heap s !! r) as [n|] eqn:Hn; csimpl; [|exact IH].
    rewrite decide_False; [by rewrite IH|].
    rewrite (Hws r n Hn). congruence.
Qed.

Lemma on_message_report_cases c payload now s :
  let s1 := record_report c now payload s in
  (updatePromMetrics now s1 = TypeError
   ∧ on_message c (Data (Some "report") payload) now s = s1)
  ∨ (active_nodes now s1 = Ok []
     ∧ on_message c (Data (Some "report") payload) now s = s1)
  ∨ (∃ active, active_nodes now s1 = Ok active ∧ active ≠ []
       ∧ on_message c (Data (Some "report") payload) now s
         = aggregated s1 active).
Proof.
  intros s1. unfold on_message. rewrite decide_True by done. fold s1.
  destruct (active_nodes now s1) as [active| |] eqn:Hact.
  - destruct active as [|n active].
    + right. left. by rewrite updatePromMetrics_empty.
    + right. right. exists (n :: active).
      by rewrite (updatePromMetrics_nonempty now s1 (n :: active)).
  - left. assert (updatePromMetrics now s1 = TypeError) as ->; [|done].
    unfold updatePromMetrics. by rewrite Hact.
  - by apply filterE_is_active_finite in Hact.
Qed.

Lemma live_on_message_report c payload now s :
  live (on_message c (Data (Some "report") payload) now s)
  = live (record_report c now payload s).
Proof.
  destruct (on_message_report_cases c payload now s)
    as [[_ ->]|[[_ ->]|(active & _ & _ & ->)]]; done.
Qed.

(** X7. In every reachable state a report updates the registry entry of the
    reporting socket in place: that entry gets the arrival time and the
    payload, keeps its id and its position, and every other entry is left as
    it was. *)
Theorem report_updates_own_entry es c payload now :
  let s := run init es in
  live (on_message c (Data (Some "report") payload) now s)
  = (λ n, if decide (ws n = c) then reported now payload n else n) <$> live s.
Proof.
  intros s. rewrite live_on_message_report.
  apply live_record_report_wf, run_wf, init_wf.
Qed.

Lemma registry_node_of_socket s c :
  registry_wf s → c ∈ nodes s → ∃ n, n ∈ live s ∧ ws n = c.
Proof.
  intros Hwf Hc. rewrite <-(live_registry s Hwf) in Hc.
  apply list_elem_of_fmap in Hc as (n & -> & Hn). eauto.
Qed.

(** X8. A report without a metrics object from a registered node is recorded,
    makes the aggregation it triggers throw, and for the next 30000 ms does
    the same to the aggregation of every report of another socket: the
    gauges and the stored previous total stay as they were before it. *)
Theorem report_without_metrics_freezes_snapshot es c c' payload now now' :
  let s := run init es in
  c ∈ nodes s → c' ≠ c → (now' - now < 30000)%Z →
  let s1 := on_message c (Data (Some "report") None) now s in
  let s2 := on_message c' (Data (Some "report") payload) now' s1 in
  snapshot s1 = snapshot s ∧ snapshot s2 = snapshot s.
Proof.
  intros s Hc Hne Hnow s1 s2.
  assert (Hwf : registry_wf s) by apply run_wf, init_wf.
  destruct (registry_node_of_socket s c Hwf Hc) as (n & Hn & Hws).
  set (r1 := record_report c now None s).
  assert (Hthrow1 : updatePromMetrics now r1 = TypeError).
  { apply updatePromMetrics_throws, Exists_exists.
    exists (reported now None n).
    split; [|split; [simpl; lia | done]].
    subst r1. rewrite live_record_report_wf by done.
    apply list_elem_of_fmap. exists n. by rewrite decide_True. }
  assert (Hs1 : s1 = r1).
  { destruct (on_message_report_cases c None now s)
      as [[_ H]|[[H _]|(active & H & Hact & _)]]; fold r1 in H.
    - done.
    - by rewrite updatePromMetrics_empty in Hthrow1.
    - by rewrite (updatePromMetrics_nonempty _ _ _ H Hact) in Hthrow1. }
  split; [by rewrite Hs1|].
  set (r2 := record_report c' now' payload s1).
  assert (Hthrow2 : updatePromMetrics now' r2 = TypeError).
  { apply updatePromMetrics_throws, Exists_exists.
    exists (reported now None n).
    split; [|split; [simpl; lia | done]].
    subst r2. rewrite live_record_report_wf
      by (rewrite Hs1; by apply record_report_wf).
    rewrite Hs1. subst r1. rewrite live_record_report_wf by done.
    apply list_elem_of_fmap. exists (reported now None n).
    split; [by rewrite decide_False by (simpl; congruence)|].
    apply list_elem_of_fmap. exists n. by rewrite decide_True. }
  destruct (on_message_report_cases c' payload now' s1)
    as [[_ H]|[[H _]|(active & H & Hact & _)]]; fold r2 in H.
  - subst s2. rewrite H. subst r2. by rewrite Hs1.
  - by rewrite updatePromMetrics_empty in Hthrow2.
  - by rewrite (updatePromMetrics_nonempty _ _ _ H Hact) in Hthrow2.
Qed.

(** The second node reports without a metrics object at 3 s; the first
    node's report of 40 clients at 4 s leaves the published total at 15. *)
Lemma report_without_metrics_freezes_snapshot_witness :
  let es := [Connect 0; Connect 0; Message 0 (report (counted 10)) 1000;
             Message 1 (report (counted 5)) 2000] in
  let s1 := on_message 1 (Data (Some "report") None) 3000 (run init es) in
  let s2 := on_message 0 (report (counted 40)) 4000 s1 in
  1%nat ∈ nodes (run init es)
  ∧ snapshot s2 = snapshot (run init es)
  ∧ this (totalClientsGauge (cluster s2)) = 15%Q.
Proof.
  intros es s1 s2.
  assert (Hc : 1%nat ∈ nodes (run init es))
    by (apply (bool_decide_unpack _); vm_compute; exact I).
  split; [exact Hc|]. split; [|vm_compute; reflexivity].
  refine (proj2 (report_without_metrics_freezes_snapshot es 1%nat 0%nat
                   (Some (counted 40)) 3000 4000 Hc _ _)); [lia | lia].
Defined.

End Reports.

(** ** Frames of sockets outside the registry (part_000) *)

Section LateFrames.
Import Coordinator.



End LateFrames.

(** ** The active set when a report has no metrics object (part_000) *)

Section ActiveSetThrows.
Import Coordinator.

(** C6 (the code at the failing input). Two nodes have reported 10 and 5
    clients.  At 3 s the second sends a report without a metrics object, at
    4 s the first reports 40 clients.  At the aggregation of that report the
    first node is the one node with a report younger than 30000 ms and a
    [connected] field, yet the filter throws on [n.metrics.connected] of the
    second node: there is no active set, the aggregation throws, the handler
    catches it, and the published total stays 15 with the stored previous
    total 15. *)
Theorem C6_filter_throws_on_report_without_metrics :
  let s1 := run two_reporting_nodes
              [Message 1 (Data (Some "report") None) 3000] in
  let s2 := record_report 0 4000 (Some (counted 40)) s1 in
  let s3 := run s1 [Message 0 (report (counted 40)) 4000] in
  id <$> live s2 = ["node-1"; "node-2"]
  ∧ id <$> filter (Active 4000) (live s2) = ["node-1"]
  ∧ active_nodes 4000 s2 = TypeError
  ∧ updatePromMetrics 4000 s2 = TypeError
  ∧ s3 = s2
  ∧ this (totalClientsGauge (cluster s3)) = 15%Q
  ∧ this (lastTotalClients s3) = 15%Q.
Proof. repeat split; vm_compute; reflexivity. Qed.

End ActiveSetThrows.

(** * Invariants of the published figures (part_000) *)

Section Snapshot.
Import Coordinator.

Lemma drop_rate_spec_nonneg previousTotal total :
  0 ≤ drop_rate_spec previousTotal total.
Proof.
  unfold drop_rate_spec. case_decide; [|apply Qcle_refl].
  apply Math_max_spec.
Qed.

Lemma Qcminus_le_self x y : 0 ≤ y → x - y ≤ x.
Proof.
  intros Hy. unfold Qcminus.
  rewrite <-(Qcplus_0_r x) at 2. apply Qcplus_le_mono_l.
  change 0 with (- 0). by apply Qcopp_le_compat.
Qed.

Lemma drop_rate_spec_le_1 previousTotal total :
  0 ≤ total → drop_rate_spec previousTotal total ≤ 1.
Proof.
  intros Htotal. unfold drop_rate_spec. case_decide as Hpos; [|done].
  unfold Math_max. case_decide; [|done].
  rewrite <-(Qcmult_inv_r previousTotal) by (intros ->; by apply Qclt_not_eq in Hpos).
  unfold Qcdiv. apply Qcmult_le_mono_nonneg_r.
  - apply Qclt_le_weak. by apply Qcinv_pos.
  - by apply Qcminus_le_self.
Qed.

Lemma sumQc_nonneg l : Forall (λ x, 0 ≤ x) l → 0 ≤ sumQc l.
Proof.
  induction 1 as [|x l Hx _ IH]; [apply Qcle_refl|].
  rewrite sumQc_cons. rewrite <-(Qcplus_0_r 0).
  by apply Qcplus_le_compat.
Qed.

(** X9. When no active node reports a negative client count, the aggregation
    publishes a non-negative total and a drop rate between 0 and 1. *)
Theorem drop_rate_between_0_and_1 now s active :
  active_nodes now s = Ok active → active ≠ [] →
  Forall (λ n, 0 ≤ or0 (metrics n ≫= connected)) active →
  ∃ s', updatePromMetrics now s = Ok s'
    ∧ 0 ≤ totalClientsGauge (cluster s')
    ∧ 0 ≤ dropRateGauge (cluster s')
    ∧ dropRateGauge (cluster s') ≤ 1.
Proof.
  intros Hact Hne Hnn. exists (aggregated s active).
  split; [by apply updatePromMetrics_nonempty|].
  assert (Htot : 0 ≤ field_sum connected active).
  { unfold field_sum. apply sumQc_nonneg. by apply Forall_fmap. }
  simpl. split; [done|].
  split; [apply drop_rate_spec_nonneg | by apply drop_rate_spec_le_1].
Qed.

Lemma drop_rate_between_0_and_1_witness :
  (∃ s', updatePromMetrics 33000 second_node_silent = Ok s'
     ∧ 0 ≤ totalClientsGauge (cluster s')
     ∧ 0 ≤ dropRateGauge (cluster s')
     ∧ dropRateGauge (cluster s') ≤ 1).
Proof.
  refine (drop_rate_between_0_and_1 33000 second_node_silent _
            second_node_silent_active second_node_silent_nonempty _).
  apply (bool_decide_unpack _). vm_compute. exact I.
Defined.

Lemma on_message_snapshot_cases c msg now s :
  snapshot (on_message c msg now s) = snapshot s
  ∨ ∃ active, active ≠ []
      ∧ snapshot (on_message c msg now s)
        = ({| totalClientsGauge := field_sum connected active;
              dropRateGauge := drop_rate_spec (lastTotalClients s)
                                 (field_sum connected active);
              avgStartupGauge := field_mean avgStartup active;
              avgBitrateGauge := field_mean avgBitrate active;
              avgBuffersGauge := field_mean avgBuffers active;
              avgBufferTimeGauge := field_mean avgBufferTime active |},
           publish_nodes active (perNode s),
           field_sum connected active).
Proof.
  destruct msg as [|type payload]; [by left|].
  destruct (decide (type = Some "report")) as [->|Htype].
  - destruct (on_message_report_cases c payload now s)
      as [[_ ->]|[[_ ->]|(active & _ & Hne & ->)]]; [by left..|].
    right. by exists active.
  - left. unfold on_message. by rewrite decide_False.
Qed.

Lemma step_snapshot_cases s e :
  snapshot (step s e) = snapshot s
  ∨ ∃ active, active ≠ []
      ∧ snapshot (step s e)
        = ({| totalClientsGauge := field_sum connected active;
              dropRateGauge := drop_rate_spec (lastTotalClients s)
                                 (field_sum connected active);
              avgStartupGauge := field_mean avgStartup active;
              avgBitrateGauge := field_mean avgBitrate active;
              avgBuffersGauge := field_mean avgBuffers active;
              avgBufferTimeGauge := field_mean avgBufferTime active |},
           publish_nodes active (perNode s),
           field_sum connected active).
Proof.
  destruct e as [now|c msg now|c|]; simpl.
  - by left.
  - case_decide; [apply on_message_snapshot_cases | by left].
  - left. by case_decide.
  - left. apply ramp_resume_frame.
Qed.

Lemma published_set i j m g :
  published i g ∨ i = j ↔ published i (set_node_gauges j m g).
Proof.
  unfold published, set_node_gauges. simpl.
  destruct (decide (j = i)) as [->|Hne].
  - rewrite !lookup_insert_eq. split; [eauto 10|by right].
  - rewrite !lookup_insert_ne by done. split; [|by left].
    intros [?|?]; [done | congruence].
Qed.

Lemma published_publish_nodes i ns g :
  published i g → published i (publish_nodes ns g).
Proof.
  revert g. induction ns as [|n ns IH]; intros g Hg; [done|].
  rewrite publish_nodes_cons. apply IH.
  destruct (metrics n) as [m|]; [|done]. apply published_set. by left.
Qed.

Lemma node_figures_all_or_none_set i j m g :
  (published i g ∨ node_figures i g = (None, None, None, None)) →
  published i (set_node_gauges j m g)
  ∨ node_figures i (set_node_gauges j m g) = (None, None, None, None).
Proof.
  intros [Hp|Hn].
  - left. apply published_set. by left.
  - destruct (decide (i = j)) as [->|Hne].
    + left. apply published_set. by right.
    + right. by rewrite node_figures_set.
Qed.

Lemma node_figures_all_or_none_publish i ns g :
  (published i g ∨ node_figures i g = (None, None, None, None)) →
  published i (publish_nodes ns g)
  ∨ node_figures i (publish_nodes ns g) = (None, None, None, None).
Proof.
  revert g. induction ns as [|n ns IH]; intros g Hg; [done|].
  rewrite publish_nodes_cons. apply IH.
  destruct (metrics n) as [m|]; [|done].
  by apply node_figures_all_or_none_set.
Qed.

(** X10. In every reachable state the stored previous total is the published
    total, the published drop rate is not negative, and every label has a
    value in all four per-node gauges or in none. *)
Theorem snapshot_invariants es :
  let s := run init es in
  lastTotalClients s = totalClientsGauge (cluster s)
  ∧ 0 ≤ dropRateGauge (cluster s)
  ∧ ∀ i, published i (perNode s)
         ∨ node_figures i (perNode s) = (None, None, None, None).
Proof.
  induction es as [|e es IH] using rev_ind.
  - simpl. split; [done|]. split; [done|]. intros i. right.
    unfold node_figures. simpl. by rewrite !lookup_empty.
  - rewrite run_snoc. simpl in *. set (s := run init es) in *.
    destruct IH as (Hlast & Hdrop & Hlab).
    destruct (step_snapshot_cases s e) as [Heq|(active & _ & Heq)];
      unfold snapshot in Heq; injection Heq as -> -> ->; [done|].
    simpl. split; [done|]. split; [apply drop_rate_spec_nonneg|].
    intros i. apply node_figures_all_or_none_publish, Hlab.
Qed.

Lemma step_published s e i :
  published i (perNode s) → published i (perNode (step s e)).
Proof.
  intros Hp.
  destruct (step_snapshot_cases s e) as [Heq|(active & _ & Heq)];
    unfold snapshot in Heq; injection Heq as _ -> _; [done|].
  by apply published_publish_nodes.
Qed.

(** X11. A label once published in the per-node gauges keeps a value in all
    four of them through every later event: the series of a node is not
    removed when the node goes stale or disconnects. *)
Theorem per_node_series_never_removed s es i :
  published i (perNode s) → published i (perNode (run s es)).
Proof.
  revert s. induction es as [|e es IH]; intros s Hp; [done|].
  rewrite run_cons. by apply IH, step_published.
Qed.

(** The series ["node-2"] published once stays published after the
    disconnect of both of its nodes and two hours of silence. *)
Lemma per_node_series_never_removed_witness :
  let es := [Close 1; Close 2; Connect 7200000;
             Message 3 (report (counted 1)) 7200000] in
  published "node-2" (perNode shared_id_published)
  ∧ published "node-2" (perNode (run shared_id_published es)).
Proof.
  intros es.
  assert (Hp : published "node-2" (perNode shared_id_published)).
  { repeat split; apply (bool_decide_unpack _); vm_compute; exact I. }
  split; [exact Hp|].
  exact (per_node_series_never_removed shared_id_published es "node-2" Hp).
Defined.

End Snapshot.

Section Reaggregation.
Import Coordinator.

Lemma node_figures_set_eq i m g :
  node_figures i (set_node_gauges i m g)
  = (Some (or0 (cpu m)), Some (or0 (mem m)), Some (or0 (clients m)),
     Some (or0 (failures m))).
Proof.
  unfold node_figures, set_node_gauges. simpl. by rewrite !lookup_insert_eq.
Qed.

Lemma node_figures_publish_unwritten i ns g :
  Forall (λ n, ¬ (id n = i ∧ is_Some (metrics n))) ns →
  node_figures i (publish_nodes ns g) = node_figures i g.
Proof.
  intros Hns. revert g. induction Hns as [|n ns Hn _ IH]; intros g; [done|].
  rewrite publish_nodes_cons, IH. destruct (metrics n) as [m|]; [|done].
  apply node_figures_set. intros ->. apply Hn. eauto.
Qed.

Lemma node_figures_publish_written i ns g g' :
  Exists (λ n, id n = i ∧ is_Some (metrics n)) ns →
  node_figures i (publish_nodes ns g) = node_figures i (publish_nodes ns g').
Proof.
  revert g g'. induction ns as [|n ns IH]; intros g g' Hex.
  { by apply Exists_nil in Hex. }
  rewrite !publish_nodes_cons.
  destruct (decide (Exists (λ n, id n = i ∧ is_Some (metrics n)) ns))
    as [Hlater|Hlater]; [by apply IH|].
  apply Exists_cons in Hex as [[<- [m Hm]]|Hex]; [|done].
  apply not_Exists_Forall in Hlater; [|apply _].
  rewrite !node_figures_publish_unwritten, Hm by done.
  by rewrite !node_figures_set_eq.
Qed.

Lemma node_gauges_eq g1 g2 :
  (∀ i, node_figures i g1 = node_figures i g2) → g1 = g2.
Proof.
  intros Heq. destruct g1 as [a1 b1 c1 d1], g2 as [a2 b2 c2 d2].
  unfold node_figures in Heq. simpl in Heq.
  f_equal; apply map_eq; intros i; specialize (Heq i); congruence.
Qed.

Lemma publish_nodes_twice ns g :
  publish_nodes ns (publish_nodes ns g) = publish_nodes ns g.
Proof.
  apply node_gauges_eq. intros i.
  destruct (decide (Exists (λ n, id n = i ∧ is_Some (metrics n)) ns))
    as [Hex|Hex].
  - by apply node_figures_publish_written.
  - apply not_Exists_Forall in Hex; [|apply _].
    by rewrite node_figures_publish_unwritten.
Qed.

(** X12. An aggregation run again at once, on the state the first left, publishes
    the same total, the same four means and the same per-node figures, but a
    drop rate of 0: the rate compares with the previous aggregation, whichever
    report triggered it. *)
Theorem reaggregation_resets_drop_rate now s active :
  active_nodes now s = Ok active → active ≠ [] →
  ∃ s1 s2, updatePromMetrics now s = Ok s1
    ∧ updatePromMetrics now s1 = Ok s2
    ∧ cluster s2
      = {| totalClientsGauge := totalClientsGauge (cluster s1);
           dropRateGauge := 0;
           avgStartupGauge := avgStartupGauge (cluster s1);
           avgBitrateGauge := avgBitrateGauge (cluster s1);
           avgBuffersGauge := avgBuffersGauge (cluster s1);
           avgBufferTimeGauge := avgBufferTimeGauge (cluster s1) |}
    ∧ perNode s2 = perNode s1
    ∧ lastTotalClients s2 = lastTotalClients s1.
Proof.
  intros Hact Hne.
  exists (aggregated s active), (aggregated (aggregated s active) active).
  split; [by apply updatePromMetrics_nonempty|].
  split; [by apply updatePromMetrics_nonempty|].
  simpl. split; [|split; [apply publish_nodes_twice | done]].
  f_equal. apply drop_rate_growth, Qcle_refl.
Qed.

Lemma reaggregation_resets_drop_rate_witness :
  ∃ s1 s2, updatePromMetrics 33000 second_node_silent = Ok s1
    ∧ updatePromMetrics 33000 s1 = Ok s2
    ∧ this (dropRateGauge (cluster s1)) = (1 # 3)%Q
    ∧ this (dropRateGauge (cluster s2)) = 0%Q
    ∧ perNode s2 = perNode s1.
Proof.
  destruct (reaggregation_resets_drop_rate 33000 second_node_silent _
              second_node_silent_active second_node_silent_nonempty)
    as (s1 & s2 & H1 & H2 & Hc & Hp & _).
  exists s1, s2. split; [exact H1|]. split; [exact H2|].
  split; [|split; [by rewrite Hc | exact Hp]].
  rewrite (updatePromMetrics_nonempty _ _ _ second_node_silent_active
             second_node_silent_nonempty) in H1.
  injection H1 as <-. vm_compute. reflexivity.
Defined.

End Reaggregation.

(** * The log of sent messages over runs (part_000) *)

Section SentLog.
Import Coordinator.

Lemma target_le_total T N idx :
  (0 < N)%nat → (target (T / N) (T mod N) idx ≤ T)%nat.
Proof.
  intros HN. rewrite target_cases. pose proof (Nat.div_mod_eq T N).
  case_decide; nia.
Qed.

Lemma FIB_SEQUENCE_at_most_500 i total :
  FIB_SEQUENCE !! i = Some total → (total ≤ 500)%nat.
Proof.
  intros Hi. apply list_elem_of_lookup_2 in Hi. revert total Hi.
  apply list.Forall_forall. unfold FIB_SEQUENCE. repeat constructor; lia.
Qed.

Lemma elem_of_ramp_directives cm i total ns :
  cm ∈ ramp_directives i total ns →
  ∃ idx n, ns !! idx = Some n
    ∧ cm = (ws n, Ramp (target (total / length ns) (total mod length ns) idx) i).
Proof.
  unfold ramp_directives. intros [idx Hidx]%list_elem_of_lookup.
  rewrite list_lookup_imap in Hidx.
  destruct (ns !! idx) as [n|] eqn:Hn; [|done].
  injection Hidx as <-. eauto.
Qed.

Lemma filter_none {A} (P : A → Prop) `{!∀ x, Decision (P x)} (l : list A) :
  Forall (λ x, ¬ P x) l → filter P l = [].
Proof.
  induction 1 as [|x l Hx _ IH]; [done|]. by rewrite filter_cons_False.
Qed.

Lemma ramp_resume_cases s :
  (sent (ramp_resume s) = sent s
   ∧ ∀ i, passed i (rampTask s) → passed i (rampTask (ramp_resume s)))
  ∨ ∃ ms i total,
      rampTask s = Sleeping ms i ∧ FIB_SEQUENCE !! i = Some total
      ∧ live s ≠ []
      ∧ sent (ramp_resume s) = sent s ++ ramp_directives i total (live s)
      ∧ rampTask (ramp_resume s) = Sleeping RAMP_INTERVAL_MS (S i).
Proof.
  unfold ramp_resume. destruct (rampTask s) as [ms i|] eqn:Htask.
  - destruct (FIB_SEQUENCE !! i) as [total|] eqn:Hi.
    + case_decide as Hlen.
      * left. split; [done|]. simpl. lia.
      * right. exists ms, i, total. repeat split; try done.
        intros Hnil. by rewrite Hnil in Hlen.
    + by left.
  - left. split; [done|]. by rewrite Htask.
Qed.

Lemma directive_ok_mono t t' cm :
  (∀ i, passed i t → passed i t') → directive_ok t cm → directive_ok t' cm.
Proof.
  unfold directive_ok. destruct (cm.2) as [?|k j]; [done|].
  intros Hmono [? ?]. auto.
Qed.

Lemma ramp_directives_ok ms i total ns :
  FIB_SEQUENCE !! i = Some total → ns ≠ [] →
  Forall (directive_ok (Sleeping ms (S i))) (ramp_directives i total ns).
Proof.
  intros Hi Hne. apply list.Forall_forall. intros cm Hcm.
  apply elem_of_ramp_directives in Hcm as (idx & n & _ & ->).
  unfold directive_ok. simpl. split; [lia|]. exists total.
  split; [done|]. split; [|by eapply FIB_SEQUENCE_at_most_500].
  apply target_le_total. destruct ns; [done | simpl; lia].
Qed.

Lemma step_directive_ok s e :
  Forall (directive_ok (rampTask s)) (sent s) →
  Forall (directive_ok (rampTask (step s e))) (sent (step s e)).
Proof.
  intros Hok. destruct e as [now|c msg now|c|]; unfold step.
  - apply Forall_app. split; [done|]. by repeat constructor.
  - case_decide; [|done].
    by destruct (on_message_frame c msg now s) as (_ & _ & -> & ->).
  - by case_decide.
  - destruct (ramp_resume_cases s)
      as [[-> Hmono]|(ms & i & total & Htask & Hi & Hne & -> & ->)].
    + eapply Forall_impl; [done|]. intros cm. by apply directive_ok_mono.
    + apply Forall_app. split; [|by apply ramp_directives_ok].
      eapply Forall_impl; [done|]. intros cm. apply directive_ok_mono.
      rewrite Htask. simpl. lia.
Qed.

(** X14. Every ramp directive the coordinator ever sends carries the index of an
    entry the iterator has already taken and a client count that is at most
    the target of that entry, hence at most 500. *)
Theorem directives_within_step_targets es :
  Forall (directive_ok (rampTask (run init es))) (sent (run init es)).
Proof.
  induction es as [|e es IH] using rev_ind; [by constructor|].
  rewrite run_snoc. by apply step_directive_ok.
Qed.

Lemma sent_for_step_app i (s : State) l :
  filter (λ cm, is_ramp_of_step i cm = true) (sent s ++ l)
  = sent_for_step i s ++ filter (λ cm, is_ramp_of_step i cm = true) l.
Proof. unfold sent_for_step. by rewrite list.filter_app. Qed.

Lemma ramp_directives_other_step i j total ns :
  i ≠ j →
  filter (λ cm, is_ramp_of_step i cm = true) (ramp_directives j total ns) = [].
Proof.
  intros Hij. apply filter_none, list.Forall_forall. intros cm Hcm.
  apply elem_of_ramp_directives in Hcm as (idx & n & _ & ->).
  unfold is_ramp_of_step. simpl. rewrite bool_decide_eq_false_2; done.
Qed.

Lemma step_passed s e i :
  passed i (rampTask s) →
  sent_for_step i (step s e) = sent_for_step i s
  ∧ passed i (rampTask (step s e)).
Proof.
  intros Hp. destruct e as [now|c msg now|c|]; unfold step.
  - split; [|done]. unfold sent_for_step at 1.
    change (sent (on_connection now s))
      with (sent s ++ [(nextConn s, Register (nodeId_of s))]).
    rewrite sent_for_step_app, filter_cons_False, filter_nil by done.
    by rewrite app_nil_r.
  - case_decide; [|done]. unfold sent_for_step.
    by destruct (on_message_frame c msg now s) as (_ & _ & -> & ->).
  - by case_decide.
  - destruct (ramp_resume_cases s)
      as [[Hsent Hmono]|(ms & j & total & Htask & Hi & Hne & Hsent & ->)].
    + unfold sent_for_step. rewrite Hsent. auto.
    + rewrite Htask in Hp. simpl in Hp. split; [|simpl; lia].
      unfold sent_for_step at 1.
      rewrite Hsent, sent_for_step_app, ramp_directives_other_step by lia.
      by rewrite app_nil_r.
Qed.

(** X15. Once the ramp iterator has gone past an entry, no later event adds a
    directive of that step to what was sent for it: a step that shipped is
    not resent, and a step that was passed over is not made up for. *)
Theorem passed_steps_are_final s es i :
  passed i (rampTask s) →
  sent_for_step i (run s es) = sent_for_step i s
  ∧ passed i (rampTask (run s es)).
Proof.
  revert s. induction es as [|e es IH]; intros s Hp; [done|].
  rewrite run_cons. destruct (step_passed s e i Hp) as [Hsent Hp'].
  destruct (IH _ Hp') as [-> ?]. by rewrite Hsent.
Qed.

(** Step 4 was passed over on an empty registry; two nodes joining and ten
    further wake-ups send nothing for it. *)
Lemma passed_steps_are_final_witness :
  let s := step step4_due Wake in
  let es := [Connect 0; Wake; Connect 0; Wake; Wake; Wake; Wake; Wake; Wake;
             Wake; Wake; Wake] in
  passed 4 (rampTask s)
  ∧ sent_for_step 4 s = []
  ∧ sent_for_step 4 (run s es) = [].
Proof.
  intros s es.
  assert (Hp : passed 4 (rampTask s)) by (vm_compute; lia).
  split; [exact Hp|]. split; [vm_compute; reflexivity|].
  rewrite (proj1 (passed_steps_are_final s es 4%nat Hp)).
  vm_compute. reflexivity.
Defined.

Lemma sent_to_app c l k : sent_to c (l ++ k) = sent_to c l ++ sent_to c k.
Proof. unfold sent_to. by rewrite list.filter_app. Qed.

Lemma step_closed_socket s e c :
  registry_wf s → (c < nextConn s)%nat → c ∉ nodes s →
  sent_to c (sent (step s e)) = sent_to c (sent s)
  ∧ (c < nextConn (step s e))%nat ∧ c ∉ nodes (step s e).
Proof.
  intros Hwf Hlt Hc. destruct e as [now|c' msg now|c'|]; unfold step.
  - change (sent (on_connection now s))
      with (sent s ++ [(nextConn s, Register (nodeId_of s))]).
    rewrite sent_to_app. unfold sent_to at 2.
    rewrite filter_cons_False, filter_nil, app_nil_r by (simpl; lia).
    split; [done|]. simpl. split; [lia|].
    rewrite elem_of_app, list_elem_of_singleton. intros [?|?]; [done | lia].
  - case_decide; [|done].
    by destruct (on_message_frame c' msg now s) as (-> & -> & -> & _).
  - case_decide; [|done]. simpl. split; [done|]. split; [done|].
    rewrite list_elem_of_filter. tauto.
  - destruct (ramp_resume_frame s) as (Hn & _ & Hk & _). rewrite Hn, Hk.
    split; [|done].
    destruct (ramp_resume_cases s)
      as [[-> _]|(ms & i & total & _ & _ & _ & -> & _)]; [done|].
    rewrite sent_to_app. unfold sent_to at 2. rewrite filter_none.
    { by rewrite app_nil_r. }
    apply list.Forall_forall. intros cm Hcm.
    apply elem_of_ramp_directives in Hcm as (idx & n & Hn' & ->). simpl.
    intros <-. apply Hc. rewrite <-(live_registry s Hwf).
    apply list_elem_of_fmap. exists n. split; [done|].
    by eapply list_elem_of_lookup_2.
Qed.

(** X16. A socket that has connected and is no longer in the registry is sent
    nothing from then on, whatever happens afterwards. *)
Theorem closed_socket_gets_no_message es es' c :
  let s := run init es in
  (c < nextConn s)%nat → c ∉ nodes s →
  sent_to c (sent (run s es')) = sent_to c (sent s).
Proof.
  intros s Hlt Hc.
  assert (Hwf : registry_wf s) by apply run_wf, init_wf.
  clearbody s. revert s Hlt Hc Hwf.
  induction es' as [|e es' IH]; intros s Hlt Hc Hwf; [done|].
  rewrite run_cons.
  destruct (step_closed_socket s e c Hwf Hlt Hc) as (Hsent & Hlt' & Hc').
  rewrite IH; [done..|by apply step_wf].
Qed.

(** The first node saw steps 0 to 3 and left; the ten later steps shipped to
    a second node add nothing to the four directives it was sent. *)
Lemma closed_socket_gets_no_message_witness :
  let es := [Connect 0; Wake; Wake; Wake; Wake; Close 0] in
  let es' := [Connect 0; Wake; Wake; Wake; Wake; Wake; Wake; Wake; Wake;
              Wake; Wake] in
  (0 < nextConn (run init es))%nat
  ∧ (0%nat ∉ nodes (run init es))
  ∧ sent_to 0 (sent (run (run init es) es'))
    = [(0%nat, Register "node-1"); (0%nat, Ramp 1 0); (0%nat, Ramp 2 1);
       (0%nat, Ramp 3 2); (0%nat, Ramp 5 3)].
Proof.
  intros es es'.
  assert (Hlt : (0 < nextConn (run init es))%nat) by (vm_compute; lia).
  assert (Hc : 0%nat ∉ nodes (run init es))
    by (apply (bool_decide_unpack _); vm_compute; exact I).
  split; [exact Hlt|]. split; [exact Hc|].
  rewrite (closed_socket_gets_no_message es es' 0%nat Hlt Hc).
  vm_compute. reflexivity.
Defined.

End SentLog.

(** * Registration (part_000) *)

Section Registration.
Import Coordinator.

Lemma registered_app l k :
  filter (λ cm, is_register cm = true) (l ++ k)
  = filter (λ cm, is_register cm = true) l
    ++ filter (λ cm, is_register cm = true) k.
Proof. by rewrite list.filter_app. Qed.

Lemma ramp_directives_not_register i total ns :
  filter (λ cm, is_register cm = true) (ramp_directives i total ns) = [].
Proof.
  apply filter_none, list.Forall_forall. intros cm Hcm.
  by apply elem_of_ramp_directives in Hcm as (idx & n & _ & ->).
Qed.

Lemma step_registered s e :
  (filter (λ cm, is_register cm = true) (sent s)).*1 = seq 0 (nextConn s)
  ∧ (∀ c n, heap s !! c = Some n → (c, Register (id n)) ∈ sent s) →
  (filter (λ cm, is_register cm = true) (sent (step s e))).*1
  = seq 0 (nextConn (step s e))
  ∧ (∀ c n, heap (step s e) !! c = Some n →
       (c, Register (id n)) ∈ sent (step s e)).
Proof.
  intros [Hreg Hid]. destruct e as [now|c' msg now|c'|]; unfold step.
  - change (sent (on_connection now s))
      with (sent s ++ [(nextConn s, Register (nodeId_of s))]).
    change (nextConn (on_connection now s)) with (S (nextConn s)).
    split.
    + rewrite registered_app, fmap_app, Hreg, seq_S.
      by rewrite filter_cons_True, filter_nil.
    + intros c n. simpl. destruct (decide (c = nextConn s)) as [->|Hne].
      * rewrite lookup_insert_eq. intros [= <-].
        apply elem_of_app. right. by apply list_elem_of_singleton.
      * rewrite lookup_insert_ne by done. intros Hn.
        apply elem_of_app. left. by apply Hid.
  - case_decide; [|done].
    destruct (on_message_frame c' msg now s) as (_ & -> & -> & _).
    split; [done|]. intros c n Hn.
    destruct (on_message_heap c' msg now s) as [Hh|[payload Hh]];
      rewrite Hh in Hn; [by apply Hid|].
    destruct (decide (c' = c)) as [->|Hne].
    + rewrite lookup_alter_eq in Hn.
      destruct (heap s !! c) as [n0|] eqn:Hn0; [|done].
      injection Hn as <-. exact (Hid c n0 Hn0).
    + rewrite lookup_alter_ne in Hn by done. by apply Hid.
  - by case_decide.
  - destruct (ramp_resume_frame s) as (_ & Hh & Hk & _). rewrite Hh, Hk.
    destruct (ramp_resume_cases s)
      as [[-> _]|(ms & i & total & _ & _ & _ & -> & _)]; [done|].
    split.
    + by rewrite registered_app, ramp_directives_not_register, app_nil_r.
    + intros c n Hn. apply elem_of_app. left. by apply Hid.
Qed.

(** X17. Every socket that has connected was sent exactly one registration, the
    registrations went out in connection order, and the id a socket was told
    is the id its node object still carries: reports never change it. *)
Theorem every_socket_registered_once es :
  let s := run init es in
  (filter (λ cm, is_register cm = true) (sent s)).*1 = seq 0 (nextConn s)
  ∧ (∀ c n, heap s !! c = Some n → (c, Register (id n)) ∈ sent s).
Proof.
  induction es as [|e es IH] using rev_ind.
  - split; [done|]. intros c n. simpl. by rewrite lookup_empty.
  - simpl. rewrite run_snoc. by apply step_registered.
Qed.

Lemma live_on_connection now s :
  registry_wf s →
  live (on_connection now s)
  = live s ++ [{| id := nodeId_of s; ws := nextConn s; lastReport := now;
                  metrics := Some emptyMetrics |}].
Proof.
  intros (_ & Hlt & _ & _). unfold live. simpl.
  rewrite omap_app. f_equal.
  - induction (nodes s) as [|r l IH]; [done|]. csimpl.
    rewrite lookup_insert_ne by (specialize (Hlt r ltac:(left)); lia).
    rewrite IH; [done|]. intros r' Hr'. apply Hlt. by right.
  - csimpl. by rewrite lookup_insert_eq.
Qed.

(** X18. In every reachable state a connection appends one node to the registry,
    after all others and leaving them as they were: its id is ["node-"]
    followed by the registry size plus one, its last-report time is the
    connection time, its metrics object is empty; the id is sent to the
    new socket and no gauge changes. *)
Theorem connection_appends_node es now :
  let s := run init es in
  let nodeId := "node-" +:+ pretty (length (nodes s) + 1)%nat in
  live (on_connection now s)
  = live s ++ [{| id := nodeId; ws := nextConn s; lastReport := now;
                  metrics := Some emptyMetrics |}]
  ∧ sent (on_connection now s) = sent s ++ [(nextConn s, Register nodeId)]
  ∧ snapshot (on_connection now s) = snapshot s.
Proof.
  intros s nodeId.
  assert (Hwf : registry_wf s) by apply run_wf, init_wf.
  assert (Hid : nodeId_of s = nodeId).
  { unfold nodeId_of, nodeId.
    by rewrite <-(live_registry s Hwf), length_fmap. }
  rewrite live_on_connection by done. rewrite Hid.
  split; [done|]. split; [|done].
  change (sent (on_connection now s))
    with (sent s ++ [(nextConn s, Register (nodeId_of s))]).
  by rewrite Hid.
Qed.

Lemma step_ids s e :
  registry_wf s → is_close e = false →
  id <$> live (step s e)
  = (id <$> live s)
    ++ (if is_connect e
        then ["node-" +:+ pretty (length (live s) + 1)%nat] else []).
Proof.
  intros Hwf He. destruct e as [now|c msg now|c|]; [| | done |]; simpl.
  - rewrite live_on_connection by done. by rewrite fmap_app.
  - rewrite app_nil_r. case_decide; [|done].
    destruct msg as [|type payload]; [done|].
    destruct (decide (type = Some "report")) as [->|Htype].
    + rewrite live_on_message_report, live_record_report_wf by done.
      rewrite <-list_fmap_compose. apply list_fmap_ext.
      intros _ n _. simpl. by case_decide.
    + unfold on_message. by rewrite decide_False.
  - rewrite app_nil_r. unfold live.
    by destruct (ramp_resume_frame s) as (-> & -> & _).
Qed.

Lemma node_name_inj : Inj (=) (=) (λ k : nat, "node-" +:+ pretty (S k)).
Proof.
  intros a b Heq. apply String.app_inj in Heq.
  apply (inj pretty) in Heq. lia.
Qed.

(** X19. As long as no socket has closed, the nodes of the registry are named
    node-1, node-2, ... in connection order, so their ids are pairwise
    different. *)
Theorem ids_sequential_without_disconnect es :
  Forall (λ e, is_close e = false) es →
  id <$> live (run init es)
  = (λ k, "node-" +:+ pretty (S k)) <$> seq 0 (count_events is_connect es)
  ∧ NoDup (id <$> live (run init es)).
Proof.
  intros Hes.
  assert (Hids : id <$> live (run init es)
            = (λ k, "node-" +:+ pretty (S k))
                <$> seq 0 (count_events is_connect es)).
  { induction es as [|e es IH] using rev_ind; [done|].
    apply Forall_app in Hes as [Hes He].
    apply (proj1 (Forall_singleton _ _)) in He.
    specialize (IH Hes).
    rewrite run_snoc, step_ids by (done || apply run_wf, init_wf).
    rewrite count_events_snoc, IH.
    destruct (is_connect e).
    - rewrite !Nat.add_1_r, seq_S, fmap_app. f_equal. simpl.
      by rewrite <-(length_fmap id), IH, length_fmap, length_seq.
    - by rewrite Nat.add_0_r, app_nil_r. }
  split; [done|]. rewrite Hids.
  apply (NoDup_fmap_2 _), NoDup_seq.
Qed.

Lemma ids_sequential_without_disconnect_witness :
  let es := [Connect 0; Wake; Connect 10; Message 0 (report (counted 3)) 20;
             Connect 30] in
  Forall (λ e, is_close e = false) es
  ∧ id <$> live (run init es) = ["node-1"; "node-2"; "node-3"]
  ∧ NoDup (id <$> live (run init es)).
Proof.
  intros es.
  assert (Hes : Forall (λ e, is_close e = false) es) by (repeat constructor).
  split; [exact Hes|]. split; [vm_compute; reflexivity|].
  exact (proj2 (ids_sequential_without_disconnect es Hes)).
Defined.

End Registration.

(** A label that is not the id of an active node keeps its figures: the
    report of node-1 leaves the series of the silent node-2 alone. *)
Lemma per_node_figures_frame_witness :
  let active := filter (Active 33000) (Coordinator.live second_node_silent) in
  ("node-2" ∉ (Coordinator.id <$> active))
  ∧ node_figures "node-2"
      (Coordinator.perNode (aggregated second_node_silent active))
    = node_figures "node-2" (Coordinator.perNode second_node_silent).
Proof.
  intros active.
  assert (Hi : "node-2" ∉ (Coordinator.id <$> active))
    by (apply (bool_decide_unpack _); vm_compute; exact I).
  split; [exact Hi|].
  exact (per_node_figures_frame 33000 second_node_silent _ active "node-2"
           second_node_silent_active
           (updatePromMetrics_nonempty _ _ _ second_node_silent_active
              second_node_silent_nonempty) Hi).
Defined.

(** * Runs of the part_001 event loop *)

Section RampCoordinatorRuns.
Import RampCoordinator.

Lemma cluster_run_snoc s es e : run s (es ++ [e]) = step (run s es) e.
Proof. unfold run. by rewrite foldl_snoc. Qed.

Lemma iteration_task k s :
  task (iteration k s) = (if decide (k < 14)%nat then Awaiting else Returned)
  ∧ currentStep (iteration k s) = k.
Proof.
  unfold iteration. destruct (decide (k < 14)%nat) as [Hk|Hk].
  - apply FIB_SEQUENCE_lookup in Hk as [total ->]. done.
  - destruct (FIB_SEQUENCE !! k) as [total|] eqn:Hl; [|done].
    exfalso. apply Hk, FIB_SEQUENCE_lookup. eauto.
Qed.

(** X20. [rampCluster] advances [currentStep] by one per wake-up whatever the
    registry holds: the first wake-up runs step 0, the k-th runs step
    [k - 1], and the 15th finds [currentStep = 14] past the end of the
    sequence and returns; later wake-ups do nothing. *)
Theorem cluster_step_counts_wakeups es :
  let s := run init es in
  let k := count_events cluster_is_wake es in
  (k = 0%nat ∧ task s = Scheduled ∧ currentStep s = 0%nat)
  ∨ (1 ≤ k ≤ 14 ∧ task s = Awaiting ∧ currentStep s = (k - 1)%nat)%nat
  ∨ (15 ≤ k ∧ task s = Returned ∧ currentStep s = 14)%nat.
Proof.
  induction es as [|e es IH] using rev_ind; [by left|].
  simpl in *. rewrite cluster_run_snoc, count_events_snoc.
  set (s := run init es) in *. set (k := count_events cluster_is_wake es) in *.
  destruct e as [|c|]; simpl.
  - rewrite Nat.add_0_r. exact IH.
  - rewrite Nat.add_0_r. by case_decide.
  - unfold rampCluster_resume.
    destruct IH as [(Hk & Ht & Hc)|[(Hk & Ht & Hc)|(Hk & Ht & Hc)]];
      rewrite Ht.
    + destruct (iteration_task 0 s) as [-> ->]. right. left.
      rewrite decide_True by lia. split; [lia|]. split; [done | lia].
    + rewrite Hc. destruct (iteration_task (S (k - 1)) s) as [-> ->].
      destruct (decide (S (k - 1) < 14)%nat).
      * right. left. split; [lia|]. split; [done | lia].
      * right. right. split; [lia|]. split; [done | lia].
    + right. right. split; [lia|]. split; [done | lia].
Qed.

Lemma last_count_snoc c log cm :
  last_count c (log ++ [cm])
  = if decide (cm.1 = c)
    then match cm.2 with
         | Ramp k _ => k
         | Register _ => last_count c log
         end
    else last_count c log.
Proof. unfold last_count. by rewrite foldl_snoc. Qed.

Lemma foldl_last_count_other c (l : list (conn * OutMsg)) acc :
  Forall (λ cm, cm.1 ≠ c) l →
  foldl (λ acc cm, if decide (cm.1 = c)
                   then match cm.2 with
                        | Ramp k _ => k
                        | Register _ => acc
                        end
                   else acc) acc l = acc.
Proof.
  intros Hl. revert acc. induction Hl as [|cm l Hcm _ IH]; intros acc; [done|].
  simpl. by rewrite decide_False, IH.
Qed.

Lemma foldl_last_count_imap c st (g : nat → nat) (ns : list Node) acc idx n :
  NoDup (ws <$> ns) → ns !! idx = Some n → ws n = c →
  foldl (λ acc cm, if decide (cm.1 = c)
                   then match cm.2 with
                        | Ramp k _ => k
                        | Register _ => acc
                        end
                   else acc) acc
        (imap (λ i m, (ws m, Ramp (g i) st)) ns) = g idx.
Proof.
  revert g acc idx. induction ns as [|m ns IH]; intros g acc idx Hnd Hn Hc;
    [done|].
  rewrite fmap_cons in Hnd. apply NoDup_cons in Hnd as [Hm Hnd].
  rewrite imap_cons. simpl. destruct idx as [|idx]; simpl in Hn.
  - injection Hn as ->. rewrite decide_True by done.
    apply foldl_last_count_other, list.Forall_forall. intros cm Hcm.
    apply list_elem_of_lookup in Hcm as [i Hi].
    rewrite list_lookup_imap in Hi.
    destruct (ns !! i) as [m|] eqn:Hm'; [|done]. injection Hi as <-. simpl.
    intros Heq. apply Hm. rewrite Hc, <-Heq.
    apply list_elem_of_fmap. exists m. split; [done|].
    by eapply list_elem_of_lookup_2.
  - by apply (IH (g ∘ S)).
Qed.

Lemma cluster_step_invariant s e :
  (ws <$> nodes s) `sublist_of` seq 0 (nextConn s)
  ∧ Forall (λ cm, cm.1 < nextConn s)%nat (sent s)
  ∧ (∀ n, n ∈ nodes s → clients n = last_count (ws n) (sent s)
                         ∧ (ws n, Register (id n)) ∈ sent s) →
  (ws <$> nodes (step s e)) `sublist_of` seq 0 (nextConn (step s e))
  ∧ Forall (λ cm, cm.1 < nextConn (step s e))%nat (sent (step s e))
  ∧ (∀ n, n ∈ nodes (step s e) →
       clients n = last_count (ws n) (sent (step s e))
       ∧ (ws n, Register (id n)) ∈ sent (step s e)).
Proof.
  intros (Hsub & Hsent & Hnodes).
  assert (Hnd : NoDup (ws <$> nodes s))
    by (eapply sublist_NoDup; [apply NoDup_seq | done]).
  assert (Hlt : ∀ n, n ∈ nodes s → (ws n < nextConn s)%nat).
  { intros n Hn. assert (Hw : ws n ∈ seq 0 (nextConn s)).
    { eapply elem_of_sublist; [|done]. apply list_elem_of_fmap. eauto. }
    apply elem_of_seq in Hw. lia. }
  destruct e as [|c|]; unfold step.
  - unfold on_connection. cbn [nodes nextConn sent]. split; [|split].
    + rewrite fmap_app, seq_S. by apply sublist_app.
    + apply Forall_app. split; [|repeat constructor; simpl; lia].
      eapply Forall_impl; [done|]. simpl. lia.
    + intros n [Hn| ->%list_elem_of_singleton]%elem_of_app.
      * rewrite last_count_snoc. destruct (Hnodes n Hn) as [-> Hreg].
        split; [by case_decide|]. apply elem_of_app. by left.
      * simpl. rewrite last_count_snoc, decide_True by done. simpl.
        split; [|apply elem_of_app; right; by apply list_elem_of_singleton].
        symmetry. apply foldl_last_count_other.
        eapply Forall_impl; [done|]. simpl. lia.
  - case_decide; [|done]. simpl. split; [|split; [done|]].
    + etrans; [|done]. apply fmap_sublist, sublist_filter.
    + intros n [_ Hn]%list_elem_of_filter. by apply Hnodes.
  - unfold rampCluster_resume.
    assert (Hiter : ∀ k,
      (ws <$> nodes (iteration k s)) `sublist_of` seq 0 (nextConn (iteration k s))
      ∧ Forall (λ cm, cm.1 < nextConn (iteration k s))%nat (sent (iteration k s))
      ∧ (∀ n, n ∈ nodes (iteration k s) →
           clients n = last_count (ws n) (sent (iteration k s))
           ∧ (ws n, Register (id n)) ∈ sent (iteration k s))).
    { intros k. unfold iteration.
      destruct (FIB_SEQUENCE !! k) as [total|]; [|done]. simpl.
      assert (Hws : ws <$> assign_clients total (nodes s) = ws <$> nodes s).
      { apply list_eq. intros i. unfold assign_clients.
        rewrite !list_lookup_fmap, list_lookup_imap.
        by destruct (nodes s !! i). }
      rewrite Hws. split; [done|]. split.
      - apply Forall_app. split; [done|]. apply list.Forall_forall.
        intros cm [i Hi]%list_elem_of_lookup. unfold ramp_directives in Hi.
        rewrite list_lookup_imap in Hi.
        destruct (nodes s !! i) as [m|] eqn:Hm; [|done].
        injection Hi as <-. simpl. apply Hlt.
        by eapply list_elem_of_lookup_2.
      - intros n' [i Hi]%list_elem_of_lookup. unfold assign_clients in Hi.
        rewrite list_lookup_imap in Hi.
        destruct (nodes s !! i) as [m|] eqn:Hm; [|done].
        injection Hi as <-. simpl. split.
        + unfold last_count. rewrite foldl_app. symmetry.
          by apply (foldl_last_count_imap (ws m) k
                      (count_for total (nodes s)) (nodes s) _ i m).
        + apply elem_of_app. left.
          apply (Hnodes m). by eapply list_elem_of_lookup_2. }
    destruct (task s); [apply Hiter | apply Hiter | done].
Qed.

(** X21. In every state part_001 reaches, the registry lists the sockets that
    connected and have not closed, in connection order; the [clients] field
    of each node is the client count of the last directive sent to it (0
    before the first), and its id is the one its socket was sent at
    registration. *)
Theorem cluster_registry_bookkeeping es :
  let s := run init es in
  (ws <$> nodes s) `sublist_of` seq 0 (nextConn s)
  ∧ NoDup (ws <$> nodes s)
  ∧ (∀ n, n ∈ nodes s → clients n = last_count (ws n) (sent s)
                         ∧ (ws n, Register (id n)) ∈ sent s).
Proof.
  simpl.
  assert (Hinv : (ws <$> nodes (run init es))
                   `sublist_of` seq 0 (nextConn (run init es))
    ∧ Forall (λ cm, cm.1 < nextConn (run init es))%nat (sent (run init es))
    ∧ (∀ n, n ∈ nodes (run init es) →
         clients n = last_count (ws n) (sent (run init es))
         ∧ (ws n, Register (id n)) ∈ sent (run init es))).
  { induction es as [|e es IH] using rev_ind.
    - split; [done|]. split; [constructor|]. by intros n ?%elem_of_nil.
    - rewrite cluster_run_snoc. by apply cluster_step_invariant. }
  destruct Hinv as (Hsub & _ & Hn). split; [done|]. split; [|done].
  eapply sublist_NoDup; [apply NoDup_seq | done].
Qed.

End RampCoordinatorRuns.

(** * The summary of the ramp client (part_002) *)

Section ClientSummary.
Import RampClient.

Lemma or1_nonzero n : or1 n ≠ 0.
Proof.
  unfold or1. case_decide; [done|]. by apply Qc_of_nat_nonzero.
Qed.

Lemma foldl_sum_acc (f : Row → Qc) rows a :
  foldl (λ a b, a + f b) a rows = a + sumQc (f <$> rows).
Proof.
  revert a. induction rows as [|r rows IH]; intros a; simpl.
  - by rewrite Qcplus_0_r.
  - rewrite IH. fold (sumQc (f <$> rows)). by rewrite Qcplus_assoc.
Qed.

Lemma reduce_sum_spec f rows : reduce_sum f rows = sumQc (f <$> rows).
Proof. unfold reduce_sum. by rewrite foldl_sum_acc, Qcplus_0_l. Qed.

Lemma Qcdiv_0_l x : 0 / x = 0.
Proof. unfold Qcdiv. apply Qcmult_0_l. Qed.

(** X22. [summarize] returns for every array of rows, never dividing by zero.
    It reports the number of connected clients, which is at most the number
    of clients; the buffer-event average is the sum over all rows divided by
    the number of rows, while startup delay, buffer time and bitrate are
    summed over all rows with a value and divided by the number of connected
    clients, each divisor replaced by 1 when it is 0.  An empty array gives
    0 everywhere. *)
Theorem summarize_total s :
  ∃ sm s', summarize s = Ok (sm, s')
    ∧ metrics s' = metrics s ∧ currentLoadStep s' = currentLoadStep s
    ∧ okClients sm = length (filter (λ m, connected m = true) (metrics s))
    ∧ (okClients sm ≤ length (metrics s))%nat
    ∧ avgBuffers sm
      = sumQc (bufferEvents <$> metrics s) / or1 (length (metrics s))
    ∧ avgStartup sm
      = sumQc ((λ m, or0 (startupDelay m)) <$> metrics s) / or1 (okClients sm)
    ∧ avgBufferTime sm
      = sumQc (bufferTime <$> metrics s) / or1 (okClients sm)
    ∧ avgBitrate sm = sumQc (bitrate <$> metrics s) / or1 (okClients sm)
    ∧ (metrics s = [] →
       sm = {| okClients := 0; avgStartup := 0; avgBuffers := 0;
               avgBufferTime := 0; avgBitrate := 0 |}).
Proof.
  unfold summarize. rewrite !js_div_Ok by apply or1_nonzero.
  eexists _, _. split; [reflexivity|]. simpl.
  split; [done|]. split; [done|]. split; [done|].
  split; [apply length_filter|].
  rewrite !reduce_sum_spec. split; [done|]. split.
  - f_equal. induction (metrics s) as [|r rows IH]; [done|].
    rewrite filter_cons, fmap_cons, sumQc_cons, <-IH.
    destruct (decide (has_startup r)) as [Hr|Hr].
    + by rewrite fmap_cons, sumQc_cons.
    + unfold has_startup in Hr.
      destruct (startupDelay r) as [x|]; simpl; [|by rewrite Qcplus_0_l].
      apply dec_stable in Hr. by rewrite Hr, Qcplus_0_l.
  - split; [done|]. split; [done|].
    intros ->. simpl. unfold sumQc. simpl. by rewrite !Qcdiv_0_l.
Qed.

Lemma step_series_update sm step g l :
  step_series l (updatePrometheus sm step g)
  = if decide (l = pretty step)
    then (Some (Qc_of_nat (okClients sm)), Some (avgStartup sm),
          Some (avgBitrate sm), Some (avgBuffers sm),
          Some (avgBufferTime sm))
    else step_series l g.
Proof.
  unfold step_series, updatePrometheus. simpl. case_decide as Hl.
  - subst l. by rewrite !lookup_insert_eq.
  - by rewrite !lookup_insert_ne.
Qed.

(** X23. [summarize] publishes its five figures under the label of the current
    load step and leaves the series of every other label, in particular of
    every other step index, as they were. *)
Theorem summarize_publishes_current_step s sm s' :
  summarize s = Ok (sm, s') →
  step_series (pretty (currentLoadStep s)) (gauges s')
  = (Some (Qc_of_nat (okClients sm)), Some (avgStartup sm),
     Some (avgBitrate sm), Some (avgBuffers sm), Some (avgBufferTime sm))
  ∧ (∀ l, l ≠ pretty (currentLoadStep s) →
       step_series l (gauges s') = step_series l (gauges s))
  ∧ (∀ j, j ≠ currentLoadStep s →
       step_series (pretty j) (gauges s') = step_series (pretty j) (gauges s)).
Proof.
  unfold summarize. rewrite !js_div_Ok by apply or1_nonzero.
  intros [= <- <-]. cbn [gauges]. split; [|split].
  - by rewrite step_series_update, decide_True.
  - intros l Hl. by rewrite step_series_update, decide_False.
  - intros j Hj. rewrite step_series_update, decide_False; [done|].
    by intros ?%(inj pretty).
Qed.

(** One of two clients connected at step 3: the series of step 3 is
    written, the series of step 2 is kept. *)
Lemma summarize_publishes_current_step_witness :
  ∃ sm s', summarize sample_client = Ok (sm, s')
    ∧ step_series "3" (gauges s')
      = (Some (Qc_of_nat (okClients sm)), Some (avgStartup sm),
         Some (avgBitrate sm), Some (avgBuffers sm), Some (avgBufferTime sm))
    ∧ step_series "2" (gauges s') = step_series "2" (gauges sample_client)
    ∧ okClients sm = 1%nat
    ∧ this (avgBuffers sm) = 1%Q.
Proof.
  destruct (summarize sample_client) as [[sm s']| |] eqn:Hrun;
    [|vm_compute in Hrun; discriminate Hrun..].
  exists sm, s'. split; [reflexivity|].
  destruct (summarize_publishes_current_step sample_client sm s' Hrun)
    as (Hcur & _ & Hother).
  split; [exact Hcur|]. split; [exact (Hother 2%nat ltac:(simpl; lia))|].
  vm_compute in Hrun. injection Hrun as <- _. split; reflexivity.
Defined.

End ClientSummary.
